(** * Duplicate-file finder (duplicates.py): a shallow embedding

    The development follows the layout of the script:

    - the library layer the script calls into ([hashlib], file objects,
      [os.path.join], [os.walk], [os.path.islink], [os.path.getsize],
      [multiprocessing.Pool.starmap], [input], [os.remove]) is modelled
      over an explicit file-system snapshot and explicit oracles;
    - [hashfile], [process_file_for_hashing], [find_duplicates] and
      [delete_duplicates] are transcribed statement by statement;
    - the properties of the scan and of the deletion phase come last. *)

From Stdlib Require Import String Ascii List ZArith Lia Bool Arith
  Permutation.
From Stdlib.Strings Require Import Byte.
From Equations Require Import Equations.
From Equations.Prop Require Import Logic.
Import ListNotations.

Set Warnings "-register-all".

Open Scope string_scope.
Open Scope list_scope.
Open Scope Z_scope.

(** ** Python values shared by the whole script *)

(** The exception classes the script can meet.  The first four are
    [OSError] or subclasses of it; the others are not. *)
Inductive exn : Type :=
| FileNotFoundError
| PermissionError
| IsADirectoryError
| OSError
| ValueError
| TypeError
| IndexError
| EOFError
| OverflowError
| MemoryError
| UnicodeEncodeError.

(** [isinstance(e, OSError)]: what the clause
    [except (FileNotFoundError, PermissionError, OSError)] catches. *)
Definition is_OSError (e : exn) : bool :=
  match e with
  | FileNotFoundError | PermissionError | IsADirectoryError | OSError => true
  | ValueError | TypeError | IndexError | EOFError
  | OverflowError | MemoryError | UnicodeEncodeError => false
  end.

(** Logging levels and the messages of the script, kept structured (the
    f-strings only interpolate the values recorded here). *)
Inductive level : Type := INFO | WARNING | ERROR | CRITICAL.

Inductive message : Type :=
| Skipping_OS_error (path : string) (e : exn)
| Unexpected_hashing_error (path : string) (e : exn)
| Permission_denied_exiting (parent_folder : string)
| Pass1_grouping
| Skipping_error (path : string) (e : exn)
| Pass2_hashing
| No_duplicates_to_delete
| Duplicate_deletion_header
| Mode (dry_run : bool)
| Original (path : string)
| Duplicates_header
| Numbered (i : Z) (dup : string)
| Dry_run_would_delete
| Deleted (dup : string)
| Error_deleting (dup : string) (e : exn)
| Deletion_aborted.

Definition log_record : Type := level * message.

(** ** Library layer: hashlib and binary file objects *)

(** [hashlib]: [hashlib_new algo] tells whether [hashlib.new(algo)]
    succeeds (it raises [ValueError] on an unknown name); [hexdigest algo
    fed] is the digest of the bytes fed so far, absent when [hexdigest()]
    raises [TypeError] (the variable-length algorithms need a length).
    Feeding chunk after chunk is feeding their concatenation. *)
Record hashlib : Type := mkHashlib {
  hashlib_new : string -> bool;
  hexdigest : string -> list byte -> option string
}.

(** A file opened with mode "rb": the bytes not yet read; when the device
    is faulty, how many further reads succeed before one raises [OSError];
    and the size in bytes of the largest buffer the process can still
    allocate (a read that needs a larger one raises [MemoryError]). *)
Record handle : Type := mkHandle {
  remaining : list byte;
  until_fault : option nat;
  buffer_limit : Z
}.

(** The largest [Py_ssize_t] of a 64-bit build, and the largest length of a
    [bytes] object (its header takes 33 bytes of the index range). *)
Definition ssize_max : Z := 9223372036854775807.
Definition bytes_max : Z := ssize_max - 33.

(** [file.read(n)] on a buffered reader.  The argument is first converted to
    a [Py_ssize_t]: outside the index range the conversion raises
    [OverflowError].  A length below -1 is then refused with [ValueError].
    Length 0 returns the empty bytes without touching the device.  A
    positive length asks for a buffer of that many bytes before the device
    is touched: beyond the longest [bytes] the request raises
    [OverflowError], beyond what the process can allocate [MemoryError];
    then that many bytes are read, or what is left.  Length -1 reads to the
    end, and needs room for all that is left. *)
Definition read (n : Z) (h : handle) : exn + (list byte * handle) :=
  if (n <? - ssize_max - 1) || (bytes_max <? n) then inl OverflowError
  else if n <? -1 then inl ValueError
  else if n =? 0 then inr ([], h)
  else if (0 <? n) && (buffer_limit h <? n) then inl MemoryError
  else
    match until_fault h with
    | Some O => inl OSError
    | uf =>
        if (n =? -1) && (buffer_limit h <? Z.of_nat (length (remaining h)))
        then inl MemoryError
        else
          let k := if n =? -1 then length (remaining h)
                   else Nat.min (Z.to_nat n) (length (remaining h)) in
          inr (firstn k (remaining h),
               mkHandle (skipn k (remaining h)) (option_map pred uf)
                        (buffer_limit h))
    end.

(** Lines 21-24 of [hashfile]:
<<
    buf = file.read(blocksize)
    while len(buf) > 0:
        hasher.update(buf)
        buf = file.read(blocksize)
>>
    [fed] is what the hasher has been given so far; the loop ends on the
    first empty read, or with the exception a read raises. *)
Equations? read_loop (blocksize : Z) (file : handle) (fed : list byte)
  : exn + list byte by wf (length (remaining file)) lt :=
read_loop blocksize file fed with inspect (read blocksize file) := {
  | exist _ (inl e) _ => inl e
  | exist _ (inr ([], _)) _ => inr fed
  | exist _ (inr (b :: bf, file')) _ =>
      read_loop blocksize file' (fed ++ b :: bf) }.
Proof.
  clear read_loop.
  match goal with H : read _ _ = _ |- _ => rename H into E end.
  unfold read in E.
  destruct ((blocksize <? - ssize_max - 1) || (bytes_max <? blocksize));
    [discriminate|].
  destruct (blocksize <? -1); [discriminate|].
  destruct (blocksize =? 0); [discriminate|].
  destruct ((0 <? blocksize) && (buffer_limit file <? blocksize));
    [discriminate|].
  destruct (until_fault file) as [[|u]|]; try discriminate;
    (destruct ((blocksize =? -1)
               && (buffer_limit file <? Z.of_nat (length (remaining file))));
       [discriminate|]);
    inversion E as [[Hbuf Hh]]; subst file'; clear E; simpl;
    rewrite length_skipn;
    match type of Hbuf with
    | firstn ?k _ = _ =>
        assert (Hlen : length (firstn k (remaining file)) = S (length bf))
          by (rewrite Hbuf; reflexivity);
        rewrite length_firstn in Hlen; lia
    end.
Qed.

(** ** [hashfile] (lines 16-31) *)

(** The body of the [try]: the digest, or the exception that left it. *)
Definition hashfile_try (hl : hashlib) (open_rb : string -> exn + handle)
    (path : string) (blocksize : Z) (hash_algo : string) : exn + string :=
  if hashlib_new hl hash_algo then
    match open_rb path with
    | inl e => inl e
    | inr file =>
        match read_loop blocksize file [] with
        | inl e => inl e
        | inr fed =>
            match hexdigest hl hash_algo fed with
            | Some d => inr d
            | None => inl TypeError
            end
        end
    end
  else inl ValueError.

(** The two [except] clauses: the result (None when an exception was
    caught) and the records logged. *)
Definition hashfile (hl : hashlib) (open_rb : string -> exn + handle)
    (path : string) (blocksize : Z) (hash_algo : string)
  : option string * list log_record :=
  match hashfile_try hl open_rb path blocksize hash_algo with
  | inr d => (Some d, [])
  | inl e =>
      if is_OSError e
      then (None, [(WARNING, Skipping_OS_error path e)])
      else (None, [(ERROR, Unexpected_hashing_error path e)])
  end.

(** Default of the keyword argument [blocksize]. *)
Definition default_blocksize : Z := 65536.

(** ** Python dictionaries

    A [dict] keeps its keys in insertion order, and the script depends on
    it (the groups are listed, and their first member chosen, in that
    order): a dictionary is the list of its items, oldest key first. *)
Section Dict.
Context {K V : Type} (eqb : K -> K -> bool).

Definition dict (K V : Type) : Type := list (K * V).

Definition keys (d : dict K V) : list K := map fst d.
Definition values (d : dict K V) : list V := map snd d.

Fixpoint get (k : K) (d : dict K V) : option V :=
  match d with
  | [] => None
  | (k', v) :: d' => if eqb k k' then Some v else get k d'
  end.

(** [d[k] = v] *)
Fixpoint setitem (k : K) (v : V) (d : dict K V) : dict K V :=
  match d with
  | [] => [(k, v)]
  | (k', v') :: d' =>
      if eqb k k' then (k', v) :: d' else (k', v') :: setitem k v d'
  end.
End Dict.

(** [d.setdefault(k, []).append(x)] *)
Fixpoint setdefault_append {K A : Type} (eqb : K -> K -> bool) (k : K) (x : A)
    (d : dict K (list A)) : dict K (list A) :=
  match d with
  | [] => [(k, [x])]
  | (k', xs) :: d' =>
      if eqb k k' then (k', xs ++ [x]) :: d'
      else (k', xs) :: setdefault_append eqb k x d'
  end.

(** [len(xs)] as a Python integer. *)
Definition len {A : Type} (xs : list A) : Z := Z.of_nat (length xs).

(** ** Library layer: os.path.join (POSIX flavour, two arguments) *)

Definition startswith_sep (s : string) : bool :=
  match s with
  | String c _ => Ascii.eqb c "/"
  | EmptyString => false
  end.

Fixpoint endswith_sep (s : string) : bool :=
  match s with
  | EmptyString => false
  | String c EmptyString => Ascii.eqb c "/"
  | String _ s' => endswith_sep s'
  end.

Definition join (a b : string) : string :=
  if startswith_sep b then b
  else if (a =? "")%string || endswith_sep a then (a ++ b)%string
  else (a ++ "/" ++ b)%string.

(** ** Library layer: the operating system seen by the script

    What [find_duplicates] asks of the system.  [walk] is the whole
    iteration of [os.walk(top)]: the triples it yields, or the exception that
    ends it.  [cpu_count] sizes the pool ([Pool(None)] falls back to one
    process) and [completion] is the order in which the workers report the
    chunks of a [starmap] back. *)
Definition walk_triple : Type := string * list string * list string.

Record system : Type := mkSystem {
  walk : string -> exn + list walk_triple;
  islink : string -> bool;
  getsize : string -> exn + Z;
  open_rb : string -> exn + handle;
  cpu_count : positive;
  completion : list nat
}.

(** ** Library layer: multiprocessing.Pool.starmap

    The iterable is cut into chunks of [chunksize]; chunk [i], once a
    worker is done with it, is stored by [MapResult._set] into
    [value[i*chunksize:(i+1)*chunksize]]; [get()] returns [value] when every
    chunk has been reported, and blocks until then. *)
Section Pool.
Context {T R : Type}.

Definition chunksize (processes n : nat) : nat :=
  if (n =? 0)%nat then O
  else
    let q := (n / (processes * 4))%nat in
    let extra := (n mod (processes * 4))%nat in
    if (extra =? 0)%nat then q else S q.

(** [length//chunksize + bool(length % chunksize)] *)
Definition number_of_chunks (cs n : nat) : nat :=
  if (cs =? 0)%nat then O
  else (n / cs + (if (n mod cs =? 0)%nat then 0 else 1))%nat.

Definition chunk (cs i : nat) (tasks : list T) : list T :=
  firstn cs (skipn (i * cs) tasks).

(** [value[lo:hi] = result] *)
Definition set_slice (lo hi : nat) (result value : list (option R))
  : list (option R) :=
  firstn lo value ++ result ++ skipn hi value.

Definition MapResult_set (f : T -> R) (cs : nat) (tasks : list T)
    (value : list (option R)) (i : nat) : list (option R) :=
  set_slice (i * cs) ((i + 1) * cs) (map (fun t => Some (f t)) (chunk cs i tasks))
    value.

Fixpoint all_filled (value : list (option R)) : option (list R) :=
  match value with
  | [] => Some []
  | None :: _ => None
  | Some r :: value' => option_map (cons r) (all_filled value')
  end.

(** [None]: the pool never reports completion and the call blocks. *)
Definition starmap (processes : nat) (order : list nat) (f : T -> R)
    (tasks : list T) : option (list R) :=
  let n := length tasks in
  let cs := chunksize processes n in
  let value := fold_left (MapResult_set f cs tasks) order (repeat None n) in
  if (length order =? number_of_chunks cs n)%nat then all_filled value
  else None.
End Pool.

(** ** [process_file_for_hashing] (lines 33-35)

    The worker returns the pair to the parent process; what [hashfile]
    logs stays in the worker. *)
Definition process_file_for_hashing (hl : hashlib) (sys : system)
    (task : string * string) : string * option string :=
  let '(path, hash_algo) := task in
  (path, fst (hashfile hl (open_rb sys) path default_blocksize hash_algo)).

(** ** [find_duplicates] (lines 37-94) *)

(** How a call ends: it returns, calls [sys.exit], lets an exception
    through, or never comes back from the pool. *)
Inductive outcome (A : Type) : Type :=
| Returned (a : A)
| SystemExit (code : Z)
| Raised (e : exn)
| Blocked.
Arguments Returned {A} a.
Arguments SystemExit {A} code.
Arguments Raised {A} e.
Arguments Blocked {A}.

(** Lines 48-53, the loop over the triples the walk yields. *)
Definition collect_files (sys : system) (triples : list walk_triple)
  : list string :=
  fold_left
    (fun file_list (t : walk_triple) =>
       let '(dirName, _, filenames) := t in
       fold_left
         (fun file_list filename =>
            let file_path := join dirName filename in
            if islink sys file_path then file_list
            else file_list ++ [file_path])
         filenames file_list)
    triples [].

(** Lines 60-66: the size pass, with the warnings it logs. *)
Definition size_pass (sys : system) (file_list : list string)
  : dict Z (list string) * list log_record :=
  fold_left
    (fun (st : dict Z (list string) * list log_record) path =>
       let '(size_map, logged) := st in
       match getsize sys path with
       | inr file_size => (setdefault_append Z.eqb file_size path size_map, logged)
       | inl e => (size_map, logged ++ [(WARNING, Skipping_error path e)])
       end)
    file_list ([], []).

(** Line 68. *)
Definition potential_duplicates_of (size_map : dict Z (list string))
  : dict Z (list string) :=
  filter (fun item => 1 <? len (snd item)) size_map.

(** Line 69. *)
Definition total_to_hash_of (potential_duplicates : dict Z (list string)) : Z :=
  fold_left (fun acc paths => acc + len paths) (values potential_duplicates) 0.

(** Lines 77-80. *)
Definition tasks_of (potential_duplicates : dict Z (list string))
    (hash_algo : string) : list (string * string) :=
  fold_left
    (fun tasks paths =>
       fold_left (fun tasks path => tasks ++ [(path, hash_algo)]) paths tasks)
    (values potential_duplicates) [].

(** Truth value of a hash result: [None] and the empty string are false. *)
Definition truthy (file_hash : option string) : bool :=
  match file_hash with
  | Some d => negb (d =? "")%string
  | None => false
  end.

(** Lines 85-88. *)
Definition fold_hashes (results : list (string * option string))
  : dict string (list string) :=
  fold_left
    (fun hashes (r : string * option string) =>
       let '(path, file_hash) := r in
       match file_hash with
       | Some d =>
           if truthy file_hash then setdefault_append String.eqb d path hashes
           else hashes
       | None => hashes
       end)
    results [].

(** Lines 90-92. *)
Definition keep_groups (hashes : dict string (list string))
  : dict string (list string) :=
  fold_left
    (fun found_duplicates (item : string * list string) =>
       let '(file_hash, file_paths) := item in
       if 1 <? len file_paths
       then setitem String.eqb file_hash file_paths found_duplicates
       else found_duplicates)
    hashes [].

Definition find_duplicates (hl : hashlib) (sys : system)
    (parent_folder : string) (hash_algo : string)
  : list log_record * outcome (dict string (list string)) :=
  match walk sys parent_folder with
  | inl PermissionError =>
      ([(CRITICAL, Permission_denied_exiting parent_folder)], SystemExit 1)
  | inl e => ([], Raised e)
  | inr triples =>
      let file_list := collect_files sys triples in
      let '(size_map, warnings) := size_pass sys file_list in
      let logged := (INFO, Pass1_grouping) :: warnings in
      let potential_duplicates := potential_duplicates_of size_map in
      let total_to_hash := total_to_hash_of potential_duplicates in
      if total_to_hash =? 0 then (logged, Returned [])
      else
        let logged := logged ++ [(INFO, Pass2_hashing)] in
        let tasks := tasks_of potential_duplicates hash_algo in
        match starmap (Pos.to_nat (cpu_count sys)) (completion sys)
                (process_file_for_hashing hl sys) tasks with
        | None => (logged, Blocked)
        | Some results => (logged, Returned (keep_groups (fold_hashes results)))
        end
  end.

(** ** [delete_duplicates] (lines 115-147) *)

(** What the deletion phase does to the outside world, in order: records
    handed to the logger, prompts answered on the terminal, and calls of
    [os.remove] with the exception they ended with, if any. *)
Inductive event : Type :=
| Log (r : log_record)
| Input (answer : string)
| Remove (path : string) (failure : option exn).

(** [str.lower], on the ASCII letters. *)
Definition lower_ascii (c : ascii) : ascii :=
  let n := nat_of_ascii c in
  if ((65 <=? n) && (n <=? 90))%nat then ascii_of_nat (n + 32) else c.

Fixpoint lower (s : string) : string :=
  match s with
  | EmptyString => EmptyString
  | String c s' => String (lower_ascii c) (lower s')
  end.

(** [enumerate(xs)], counting from [i]. *)
Fixpoint enumerate_from {A : Type} (i : Z) (xs : list A) : list (Z * A) :=
  match xs with
  | [] => []
  | x :: xs' => (i, x) :: enumerate_from (i + 1) xs'
  end.

(** Lines 139-144. *)
Definition remove_all (os_remove : string -> option exn)
    (duplicates_to_delete : list string) : list event :=
  flat_map
    (fun dup =>
       match os_remove dup with
       | None => [Remove dup None; Log (INFO, Deleted dup)]
       | Some e => [Remove dup (Some e); Log (ERROR, Error_deleting dup e)]
       end)
    duplicates_to_delete.

(** Lines 128-131. *)
Definition announce (original : string) (duplicates_to_delete : list string)
  : list event :=
  Log (INFO, Original original) :: Log (INFO, Duplicates_header)
  :: map (fun id : Z * string => Log (INFO, Numbered (fst id + 1) (snd id)))
       (enumerate_from 0 duplicates_to_delete).

(** Lines 124-147, the loop over [duplicate_groups.values()].  [answers]
    are the lines the user will type; [input] raises [EOFError] when there
    is none left. *)
Fixpoint delete_loop (os_remove : string -> option exn) (dry_run : bool)
    (groups : list (list string)) (answers : list string)
  : list event * outcome unit :=
  match groups with
  | [] => ([], Returned tt)
  | [] :: _ => ([], Raised IndexError)
  | (original :: duplicates_to_delete) :: groups' =>
      let shown := announce original duplicates_to_delete in
      if dry_run then
        let '(after, out) := delete_loop os_remove dry_run groups' answers in
        (shown ++ Log (INFO, Dry_run_would_delete) :: after, out)
      else
        match answers with
        | [] => (shown, Raised EOFError)
        | answer :: answers' =>
            let choice := lower answer in
            if (choice =? "y")%string then
              let '(after, out) :=
                delete_loop os_remove dry_run groups' answers' in
              (shown ++ Input answer :: remove_all os_remove duplicates_to_delete
                 ++ after, out)
            else if (choice =? "a")%string then
              (shown ++ [Input answer; Log (INFO, Deletion_aborted)],
               Returned tt)
            else
              let '(after, out) :=
                delete_loop os_remove dry_run groups' answers' in
              (shown ++ Input answer :: after, out)
        end
  end.

Definition delete_duplicates (os_remove : string -> option exn)
    (duplicate_groups : dict string (list string)) (dry_run : bool)
    (answers : list string) : list event * outcome unit :=
  match duplicate_groups with
  | [] => ([Log (INFO, No_duplicates_to_delete)], Returned tt)
  | _ =>
      let '(after, out) :=
        delete_loop os_remove dry_run (values duplicate_groups) answers in
      (Log (INFO, Duplicate_deletion_header) :: Log (INFO, Mode dry_run)
         :: after, out)
  end.

(** ** Library layer: a file-system snapshot and the system it induces *)

Inductive file_kind : Type := Regular | Fifo | CharDevice | BlockDevice | Socket.

(** A file that is not a directory or a link: the bytes a reader gets
    from it (for a pipe or a device, what its other end delivers before the
    end of the stream), and how the system calls on it fail, if they do.
    [stat_error] is the failure of [os.stat] (the entry vanished after the
    walk, the directory cannot be searched), [open_error] that of [open],
    [read_fault] as in [handle]. *)
Record file : Type := mkFile {
  kind : file_kind;
  content : list byte;
  stat_error : option exn;
  open_error : option exn;
  read_fault : option nat
}.

(** [st_size]: the byte count of a regular file, 0 for the special files. *)
Definition st_size (f : file) : Z :=
  match kind f with
  | Regular => len (content f)
  | _ => 0
  end.

(** An entry: a file, a symbolic link (to an entry, or dangling), or a
    directory with its entries in the order [os.scandir] lists them.
    [listable] tells whether the directory can be read.  A directory can be
    readable without being searchable: its names are listed, but no entry
    can be reached by its path.  For a file that is its [stat_error] and
    [open_error]; for a link it is [access_error], the error that
    [os.lstat] and [os.stat] raise on the link ([None] when the link can be
    reached). *)
Inductive node : Type :=
| File (f : file)
| Symlink (access_error : option exn) (target : option node)
| Dir (listable : bool) (children : list (string * node)).

(** [DirEntry.is_dir()], which follows links; [os.walk] takes a failure of
    the call for the answer [False]. *)
Fixpoint is_dir (n : node) : bool :=
  match n with
  | Dir _ _ => true
  | Symlink None (Some t) => is_dir t
  | _ => false
  end.

(** [os.stat]: where a chain of links ends, or the error met on the way. *)
Fixpoint follow (n : node) : exn + node :=
  match n with
  | Symlink None (Some t) => follow t
  | Symlink None None => inl FileNotFoundError
  | Symlink (Some e) _ => inl e
  | _ => inr n
  end.

(** Every entry below directory [d], with its path. *)
Fixpoint tree_entries (d : string) (n : node) : list (string * node) :=
  match n with
  | Dir _ children =>
      (fix each (cs : list (string * node)) : list (string * node) :=
         match cs with
         | [] => []
         | (name, c) :: cs' =>
             (join d name, c) :: tree_entries (join d name) c ++ each cs'
         end) children
  | _ => []
  end.

(** The entry a path names, links not followed: what [os.lstat] looks
    at.  A directory that cannot be listed may still be searched, so the
    entries below it have their paths too. *)
Definition lstat (top : string) (fs : node) (p : string) : option node :=
  option_map snd (find (fun e => (fst e =? p)%string) (tree_entries top fs)).

(** [os.walk(top)] with its defaults (top-down, [onerror=None],
    [followlinks=False]).  The library documents that by default the errors
    of the [scandir] call are ignored: a directory that cannot be listed is
    skipped silently, whether it is [top] itself or one below it.  The names
    that are not directories, special files among them, go to the third
    component.  Linked directories are named among the directories but not
    entered. *)
Fixpoint os_walk (top : string) (n : node) : list walk_triple :=
  match n with
  | Dir true children =>
      (top,
       map fst (filter (fun e => is_dir (snd e)) children),
       map fst (filter (fun e => negb (is_dir (snd e))) children))
      :: (fix below (cs : list (string * node)) : list walk_triple :=
            match cs with
            | [] => []
            | (name, c) :: cs' =>
                match c with
                | Dir _ _ => os_walk (join top name) c
                | _ => []
                end ++ below cs'
            end) children
  | _ => []
  end.

(** The largest buffer the process that scans a snapshot can allocate:
    1 GiB. *)
Definition spare_memory : Z := 1073741824.

(** [os.path.islink], [os.path.getsize] and [open(path, "rb")] on the
    snapshot.  [os.path.islink] answers [False] when [os.lstat] fails, so a
    link that cannot be reached is not recognised as one. *)
Definition snapshot_islink (top : string) (fs : node) (p : string) : bool :=
  match lstat top fs p with
  | Some (Symlink None _) => true
  | _ => false
  end.

Definition snapshot_getsize (top : string) (fs : node) (p : string) : exn + Z :=
  match lstat top fs p with
  | None => inl FileNotFoundError
  | Some n =>
      match follow n with
      | inl e => inl e
      | inr (File f) =>
          match stat_error f with
          | Some e => inl e
          | None => inr (st_size f)
          end
      | inr _ => inr 4096
      end
  end.

Definition snapshot_open (top : string) (fs : node) (p : string)
  : exn + handle :=
  match lstat top fs p with
  | None => inl FileNotFoundError
  | Some n =>
      match follow n with
      | inl e => inl e
      | inr (File f) =>
          match open_error f with
          | Some e => inl e
          | None =>
              inr (mkHandle (content f) (read_fault f) spare_memory)
          end
      | inr _ => inl IsADirectoryError
      end
  end.

(** The system a scan of [top] runs against when the tree below [top] is
    [fs]. *)
Definition snapshot (top : string) (fs : node) (cpus : positive)
    (order : list nat) : system :=
  {| walk := fun t => if (t =? top)%string then inr (os_walk top fs)
                      else inr [];
     islink := snapshot_islink top fs;
     getsize := snapshot_getsize top fs;
     open_rb := snapshot_open top fs;
     cpu_count := cpus;
     completion := order |}.

(** ** Vocabulary of the specification *)

(** Grouping a sequence by a partial key, keys in order of first
    appearance and members in order of appearance: what a loop of
    [d.setdefault(key, []).append(value)] builds. *)
Definition grouped {X K V : Type} (eqb : K -> K -> bool) (key : X -> option K)
    (val : X -> V) (xs : list X) : dict K (list V) :=
  fold_left
    (fun d x =>
       match key x with
       | Some k => setdefault_append eqb k (val x) d
       | None => d
       end)
    xs [].

(** The members a key selects. *)
Definition selected {X K V : Type} (eqb : K -> K -> bool) (key : X -> option K)
    (val : X -> V) (k : K) (xs : list X) : list V :=
  map val
    (filter (fun x => match key x with Some k' => eqb k k' | None => false end)
       xs).

(** The stages of one scan of [top]: the files the walk collects, the size
    map of the first pass, the paths handed to the hashing stage, and the
    digest the hashing stage reports for a path. *)
Definition file_list_of (sys : system) (top : string) : list string :=
  match walk sys top with
  | inr triples => collect_files sys triples
  | inl _ => []
  end.

Definition size_map_of (sys : system) (top : string) : dict Z (list string) :=
  fst (size_pass sys (file_list_of sys top)).

Definition candidates (sys : system) (top : string) : list string :=
  concat (values (potential_duplicates_of (size_map_of sys top))).

Definition digest_of (hl : hashlib) (sys : system) (hash_algo : string)
    (path : string) : option string :=
  fst (hashfile hl (open_rb sys) path default_blocksize hash_algo).

(** The key under which the grouper files a path: its digest when the
    digest is a true value. *)
Definition digest_key (hl : hashlib) (sys : system) (hash_algo : string)
    (path : string) : option string :=
  if truthy (digest_of hl sys hash_algo path)
  then digest_of hl sys hash_algo path else None.

(** The size the first pass records for a path. *)
Definition size_key (sys : system) (path : string) : option Z :=
  match getsize sys path with
  | inr file_size => Some file_size
  | inl _ => None
  end.

(** The workers report every chunk exactly once, in any order. *)
Definition schedule_ok (sys : system) (n : nat) : Prop :=
  Permutation (completion sys)
    (seq 0 (number_of_chunks (chunksize (Pos.to_nat (cpu_count sys)) n) n)).

(** The mapping a completed scan returns: the candidates grouped by
    digest, groups of one dropped. *)
Definition scan_result (hl : hashlib) (sys : system) (top : string)
    (hash_algo : string) : dict string (list string) :=
  filter (fun item => 1 <? len (snd item))
    (grouped String.eqb (digest_key hl sys hash_algo) (fun p => p)
       (candidates sys top)).

(** [has_digest h p]: the grouper files path [p] under digest [h];
    [has_size s p]: the first pass files it under size [s]. *)
Definition has_digest (hl : hashlib) (sys : system) (hash_algo : string)
    (h : string) (path : string) : bool :=
  match digest_key hl sys hash_algo path with
  | Some h' => (h =? h')%string
  | None => false
  end.

Definition has_size (sys : system) (size : Z) (path : string) : bool :=
  match size_key sys path with
  | Some size' => size =? size'
  | None => false
  end.

(** What a dry run is expected to print for the groups: each group
    announced, then the notice that its duplicates would be deleted. *)
Definition dry_run_report (groups : list (list string)) : list event :=
  flat_map
    (fun file_paths =>
       match file_paths with
       | [] => []
       | original :: duplicates_to_delete =>
           announce original duplicates_to_delete
           ++ [Log (INFO, Dry_run_would_delete)]
       end)
    groups.


(** [visited top fs p n]: the walk of [top] comes across entry [n] under
    path [p], that is, [n] is listed in [top] or in a directory below it,
    every directory on the way being a real directory that can be listed. *)
Inductive visited : string -> node -> string -> node -> Prop :=
| visited_here (top : string) (children : list (string * node))
    (name : string) (n : node) :
    In (name, n) children ->
    visited top (Dir true children) (join top name) n
| visited_below (top : string) (children : list (string * node))
    (name : string) (l : bool) (cs : list (string * node)) (p : string)
    (n : node) :
    In (name, Dir l cs) children ->
    visited (join top name) (Dir l cs) p n ->
    visited top (Dir true children) p n.

(** [buffer_fits blocksize file]: the reads of [hashfile] can be served. The
    chunk size is positive, no longer than the longest [bytes] and than the
    largest buffer the process can allocate; or it is -1, and all of the file
    fits in such a buffer. *)
Definition buffer_fits (blocksize : Z) (file : handle) : Prop :=
  (0 < blocksize <= bytes_max /\ blocksize <= buffer_limit file)
  \/ (blocksize = -1 /\ len (remaining file) <= buffer_limit file).

(** The paths the first pass files under some size. *)
Definition sized_paths (sys : system) (top : string) : list string :=
  concat (values (size_map_of sys top)).

(** ** A small tree to run the script on *)
Module Example.

(** A digest that is easy to read: the bytes themselves behind a tag.
    [shake_128] stands for the algorithms whose [hexdigest()] needs a
    length. *)
Definition toy_hashlib : hashlib :=
  {| hashlib_new := fun a =>
       ((a =? "md5") || (a =? "sha256") || (a =? "shake_128"))%string;
     hexdigest := fun a fed =>
       if (a =? "shake_128")%string then None
       else Some ("h:" ++ string_of_list_byte fed)%string |}.

Definition regular (text : string) : node :=
  File (mkFile Regular (list_byte_of_string text) None None None).

Definition fifo : node := File (mkFile Fifo [] None None None).

Definition unreadable (text : string) : node :=
  File (mkFile Regular (list_byte_of_string text) None (Some PermissionError)
          None).

(** Three files of one byte, two of them alike; a link to one of them; a
    directory with a copy, a pipe, a file that cannot be opened, one of two
    files of two bytes and a file alone in its size; a directory that cannot
    be listed; the other file of two bytes; a link to a directory. *)
Definition tree : node :=
  Dir true
    [("a.txt", regular "X");
     ("link", Symlink None (Some (regular "X")));
     ("b.txt", regular "X");
     ("c.txt", regular "Y");
     ("sub", Dir true [("d.txt", regular "X"); ("pipe", fifo);
                       ("u.txt", unreadable "X"); ("f1", regular "ZZ");
                       ("long.txt", regular "only one of this size")]);
     ("locked", Dir false [("e.txt", regular "X")]);
     ("f2", regular "ZZ");
     ("dlink", Symlink None (Some (Dir true [("z", regular "X")])))].

Definition top : string := "/data".

(** Two processes, chunks reported in order; one process, chunks
    reported last to first. *)
Definition sys_a : system := snapshot top tree 2 [0; 1; 2; 3; 4; 5; 6]%nat.
Definition sys_b : system := snapshot top tree 1 [3; 2; 1; 0]%nat.

Definition groups : dict string (list string) :=
  [("h:X", ["/data/a.txt"; "/data/b.txt"; "/data/sub/d.txt"]);
   ("h:ZZ", ["/data/f2"; "/data/sub/f1"])].

End Example.

(** Slot [j] of the pool's result list holds the result of task [j] once
    its chunk has been reported, and [None] until then. *)
Definition slots_inv {T R : Type} (f : T -> R) (cs : nat) (tasks : list T)
    (reported : nat -> bool) (value : list (option R)) : Prop :=
  length value = length tasks /\
  forall j, (j < length tasks)%nat ->
    nth_error value j
    = if reported (j / cs)%nat
      then nth_error (map (fun t => Some (f t)) tasks) j
      else Some None.

(** ** The report, the prompts and [main]: what they do to the outside *)

(** The messages of [save_to_csv], [interactive_mode] and [main]; the
    elapsed time of the last one is not recorded. *)
Inductive ui_message : Type :=
| No_duplicates_to_save
| Report_saved (output_path : string)
| Failed_to_write_csv (output_path : string) (e : exn)
| Running_interactive
| Enter_options
| Invalid_path
| Dry_run_mode_notice
| Directory_not_found (directory_path : string)
| Starting_scan (directory_path : string)
| No_duplicate_files_found
| Found_duplicates (num_duplicates : Z) (groups : Z)
| Scan_completed.

(** The questions of [interactive_mode], in the order it asks them. *)
Inductive question : Type :=
| Ask_directory
| Ask_output
| Ask_delete
| Ask_dry_run
| Ask_hash_algo.

(** What a run does, in order: the records [find_duplicates] logs, the
    events of [delete_duplicates], the other records, the report file opened
    for writing (with the exception [open] raised, if any), the rows handed
    to the CSV writer, the help text printed, and the prompts answered. *)
Inductive io_event : Type :=
| Scan (r : log_record)
| Core (e : event)
| Say (l : level) (m : ui_message)
| OpenCsv (output_path : string) (failure : option exn)
| WriteRow (row : list string)
| PrintHelp
| Prompt (q : question) (answer : string).

(** ** [save_to_csv] (lines 96-113) *)

Definition header_row : list string := ["Original File"; "Duplicate File"].

(** Lines 107-110: the rows of the groups, up to the first group without
    a first member, on which [file_paths[0]] raises [IndexError]. *)
Fixpoint report_rows (groups : list (list string))
  : list (list string) * option exn :=
  match groups with
  | [] => ([], None)
  | [] :: _ => ([], Some IndexError)
  | (original :: duplicates) :: groups' =>
      let '(rows, stop) := report_rows groups' in
      (map (fun duplicate => [original; duplicate]) duplicates ++ rows, stop)
  end.

(** [open_w path] is what [open(path, 'w', ...)] does: it raises, or it
    gives a file on which, when the writing is to fail, so many rows are
    written before the next write, or after the last row the closing of the
    file, raises the exception given: [OSError] on a faulty device,
    [UnicodeEncodeError] on a name that UTF-8 cannot encode.  The clause
    [except IOError] catches the first kind only. *)
Definition save_to_csv (open_w : string -> exn + option (nat * exn))
    (duplicate_groups : dict string (list string)) (output_path : string)
  : list io_event * outcome unit :=
  match duplicate_groups with
  | [] => ([Say INFO No_duplicates_to_save], Returned tt)
  | _ =>
      match open_w output_path with
      | inl e =>
          if is_OSError e
          then ([OpenCsv output_path (Some e);
                 Say ERROR (Failed_to_write_csv output_path e)], Returned tt)
          else ([OpenCsv output_path (Some e)], Raised e)
      | inr fault =>
          let '(rows, stop) := report_rows (values duplicate_groups) in
          let attempted := header_row :: rows in
          let written (n : nat) :=
            OpenCsv output_path None :: map WriteRow (firstn n attempted) in
          let finish :=
            match stop with
            | Some e => (written (length attempted), Raised e)
            | None =>
                (written (length attempted)
                   ++ [Say INFO (Report_saved output_path)], Returned tt)
            end in
          match fault with
          | Some (k, e) =>
              if (k <=? length attempted)%nat
              then
                if is_OSError e
                then (written k
                        ++ [Say ERROR (Failed_to_write_csv output_path e)],
                      Returned tt)
                else (written k, Raised e)
              else finish
          | None => finish
          end
      end
  end.

(** ** [interactive_mode] (lines 149-173) *)

(** What a run is asked to do: the five values [interactive_mode] returns
    and [main] reads off the parsed arguments.  The path is absent when the
    command line names none. *)
Record settings : Type := mkSettings {
  directory_path : option string;
  output_filename : string;
  delete : bool;
  dry_run : bool;
  hash_algo : string
}.

(** Lines 154-157: the first question, asked again until the answer is a
    directory.  [input] raises [EOFError] when no line is left. *)
Fixpoint ask_directory (isdir : string -> bool) (answers : list string)
  : list io_event * (exn + string * list string) :=
  match answers with
  | [] => ([], inl EOFError)
  | answer :: answers' =>
      if isdir answer then ([Prompt Ask_directory answer], inr (answer, answers'))
      else
        let '(after, r) := ask_directory isdir answers' in
        (Prompt Ask_directory answer :: Say ERROR Invalid_path :: after, r)
  end.

Definition interactive_mode (isdir : string -> bool) (answers : list string)
  : list io_event * outcome (settings * list string) :=
  let banner := [Say INFO Running_interactive; Say INFO Enter_options] in
  match ask_directory isdir answers with
  | (asked, inl e) => (banner ++ asked, Raised e)
  | (asked, inr (directory_path, answers1)) =>
      match answers1 with
      | [] => (banner ++ asked, Raised EOFError)
      | typed_name :: answers2 =>
          let output_filename :=
            if (typed_name =? "")%string then "duplicate_files.csv"
            else typed_name in
          match answers2 with
          | [] => (banner ++ asked ++ [Prompt Ask_output typed_name],
                   Raised EOFError)
          | delete_answer :: answers3 =>
              let delete := (lower delete_answer =? "y")%string in
              let so_far :=
                banner ++ asked
                  ++ [Prompt Ask_output typed_name;
                      Prompt Ask_delete delete_answer] in
              let finish (dry_run : bool) (asked_dry : list io_event)
                  (answers4 : list string) :=
                match answers4 with
                | [] => (so_far ++ asked_dry, Raised EOFError)
                | algo_answer :: answers5 =>
                    let hash_algo :=
                      if (lower algo_answer =? "md5")%string then "md5"
                      else "sha256" in
                    (so_far ++ asked_dry ++ [Prompt Ask_hash_algo algo_answer],
                     Returned
                       (mkSettings (Some directory_path) output_filename
                          delete dry_run hash_algo, answers5))
                end in
              if delete then
                match answers3 with
                | [] => (so_far, Raised EOFError)
                | dry_answer :: answers4 =>
                    finish (lower dry_answer =? "y")%string
                      [Prompt Ask_dry_run dry_answer] answers4
                end
              else finish false [] answers3
          end
      end
  end.

(** ** [main] (lines 175-221) *)

(** Line 186: no argument, or a lone request for help. *)
Definition wants_interactive (argv : list string) : bool :=
  (length argv =? 1)%nat
  || ((length argv =? 2)%nat
      && match nth_error argv 1 with
         | Some a => ((a =? "-h") || (a =? "--help"))%string
         | None => false
         end).

(** Line 212: [sum(len(v)-1 for v in duplicate_groups.values())]. *)
Definition num_duplicates_of (duplicate_groups : dict string (list string))
  : Z :=
  fold_left (fun acc v => acc + (len v - 1)) (values duplicate_groups) 0.

(** The machine a run meets: [isdir] is [os.path.isdir] on strings,
    [open_w] opens the report, [os_remove] is the outcome of [os.remove]. *)
Record machine : Type := mkMachine {
  isdir : string -> bool;
  scanned : system;
  open_w : string -> exn + option (nat * exn);
  os_remove : string -> option exn
}.

Definition lift {A : Type} (wrap : A -> io_event) (events : list A)
  : list io_event :=
  map wrap events.

(** Lines 197-198. *)
Definition announce_mode (s : settings) : list io_event :=
  if dry_run s then [Say INFO Dry_run_mode_notice] else [].

(** Lines 209-214. *)
Definition report (m : machine) (s : settings)
    (duplicate_groups : dict string (list string))
  : list io_event * outcome unit :=
  match duplicate_groups with
  | [] => ([Say INFO No_duplicate_files_found], Returned tt)
  | _ =>
      let '(written, out) :=
        save_to_csv (open_w m) duplicate_groups (output_filename s) in
      (Say INFO (Found_duplicates (num_duplicates_of duplicate_groups)
                   (len duplicate_groups)) :: written, out)
  end.

(** Lines 197-221, once the five values are known.  [os.path.isdir(None)]
    raises [TypeError], which nothing catches. *)
Definition run (hl : hashlib) (m : machine) (s : settings)
    (answers : list string) : list io_event * outcome unit :=
  match directory_path s with
  | None => (announce_mode s, Raised TypeError)
  | Some path =>
      if negb (isdir m path)
      then (announce_mode s ++ [Say CRITICAL (Directory_not_found path)],
            SystemExit 1)
      else
        let started := announce_mode s ++ [Say INFO (Starting_scan path)] in
        match find_duplicates hl (scanned m) path (hash_algo s) with
        | (logged, SystemExit code) =>
            (started ++ lift Scan logged, SystemExit code)
        | (logged, Raised e) => (started ++ lift Scan logged, Raised e)
        | (logged, Blocked) => (started ++ lift Scan logged, Blocked)
        | (logged, Returned duplicate_groups) =>
            let scan_events := started ++ lift Scan logged in
            match report m s duplicate_groups with
            | (reported, Returned _) =>
                let timed := scan_events ++ reported
                               ++ [Say INFO Scan_completed] in
                if delete s then
                  let '(deleted, out) :=
                    delete_duplicates (os_remove m) duplicate_groups
                      (dry_run s) answers in
                  (timed ++ lift Core deleted, out)
                else (timed, Returned tt)
            | (reported, SystemExit code) =>
                (scan_events ++ reported, SystemExit code)
            | (reported, Raised e) => (scan_events ++ reported, Raised e)
            | (reported, Blocked) => (scan_events ++ reported, Blocked)
            end
        end
  end.

(** [main]: [parse_args] is [parser.parse_args()] on the command line,
    which returns the five values or leaves the program. *)
Definition main (hl : hashlib) (m : machine)
    (parse_args : list string -> outcome settings) (argv : list string)
    (answers : list string) : list io_event * outcome unit :=
  if wants_interactive argv then
    match interactive_mode (isdir m) answers with
    | (asked, Returned (s, answers')) =>
        let '(events, out) := run hl m s answers' in
        (PrintHelp :: asked ++ events, out)
    | (asked, SystemExit code) => (PrintHelp :: asked, SystemExit code)
    | (asked, Raised e) => (PrintHelp :: asked, Raised e)
    | (asked, Blocked) => (PrintHelp :: asked, Blocked)
    end
  else
    match parse_args argv with
    | Returned s => run hl m s answers
    | SystemExit code => ([], SystemExit code)
    | Raised e => ([], Raised e)
    | Blocked => ([], Blocked)
    end.

(** A session on the small tree: the report can be written, every file
    can be removed. *)
Module Session.

Definition machine_ok : machine :=
  {| isdir := fun p => (p =? "/data")%string;
     scanned := Example.sys_a;
     open_w := fun _ => inr None;
     os_remove := fun _ => None |}.

Definition live : settings :=
  mkSettings (Some "/data") "report.csv" true false "sha256".

Definition dry : settings :=
  mkSettings (Some "/data") "report.csv" true true "sha256".

End Session.

(** A tree in which no two files have the same size. *)
Module Unique.

Definition tree : node :=
  Dir true [("x", Example.regular "1"); ("y", Example.regular "22");
            ("z", Example.unreadable "333")].

(** The pool is given a report it has no use for. *)
Definition sys : system := snapshot "/u" tree 3 [5; 5]%nat.

End Unique.

(** ** A digest that collides *)
Module Collision.


(** Two files of one byte and two files of two bytes, no two of them
    alike. *)
Definition tree : node :=
  Dir true
    [("a", Example.regular "X"); ("b", Example.regular "Z");
     ("c", Example.regular "XY"); ("d", Example.regular "ZW")].

Definition sys : system := snapshot "/r" tree 1 [0; 1; 2; 3]%nat.

End Collision.

(** ** A directory that can be listed but not searched *)
Module Unsearchable.

(** A file whose directory cannot be searched: it can be neither sized
    nor opened. *)
Definition denied (text : string) : node :=
  File (mkFile Regular (list_byte_of_string text) (Some PermissionError)
          (Some PermissionError) None).

(** A file, and a directory without search permission that lists a file,
    a link to a file and a directory. *)
Definition tree : node :=
  Dir true
    [("open.txt", Example.regular "X");
     ("d", Dir true
             [("a.txt", denied "X");
              ("link", Symlink (Some PermissionError)
                         (Some (Example.regular "X")));
              ("sub", Dir false [("c.txt", Example.regular "X")])])].

Definition sys : system := snapshot "/s" tree 1 [0]%nat.

End Unsearchable.

(** ** Reading a trace *)

(** The paths handed to [os.remove], the answers typed at the deletion
    prompt, the rows handed to the CSV writer, and the events of the deletion
    phase within a run, each in order. *)
Definition removed_paths (trace : list event) : list string :=
  flat_map (fun e => match e with Remove p _ => [p] | _ => [] end) trace.

Definition typed_answers (trace : list event) : list string :=
  flat_map (fun e => match e with Input a => [a] | _ => [] end) trace.

Definition rows_written (trace : list io_event) : list (list string) :=
  flat_map (fun e => match e with WriteRow row => [row] | _ => [] end) trace.

Definition core_events (trace : list io_event) : list event :=
  flat_map (fun e => match e with Core c => [c] | _ => [] end) trace.

(** The rows of a full report: for every group, each later member beside
    the first. *)
Definition data_rows (groups : list (list string)) : list (list string) :=
  flat_map
    (fun file_paths =>
       match file_paths with
       | [] => []
       | original :: duplicates =>
           map (fun duplicate => [original; duplicate]) duplicates
       end)
    groups.

(** The second column of a row. *)
Definition duplicate_column (row : list string) : string :=
  nth 1 row "".

(** The events of a dialogue: records of level INFO or ERROR, and prompts. *)
Definition asks (e : io_event) : bool :=
  match e with
  | Say INFO _ | Say ERROR _ | Prompt _ _ => true
  | _ => false
  end.

(** The record [main] logs when it refuses the directory. *)
Definition is_rejection (e : io_event) : bool :=
  match e with
  | Say CRITICAL (Directory_not_found _) => true
  | _ => false
  end.

(** * Properties *)

(** ** Dictionaries built by [setdefault(...).append(...)] *)
Section Grouping.
Context {K : Type} (eqb : K -> K -> bool).
Hypothesis eqb_eq : forall a b, eqb a b = true <-> a = b.

Lemma eqb_refl' (a : K) : eqb a a = true.
Proof. now apply eqb_eq. Qed.

Lemma eqb_neq (a b : K) : a <> b -> eqb a b = false.
Proof.
  intros Hab. destruct (eqb a b) eqn:E; [|reflexivity].
  apply eqb_eq in E. contradiction.
Qed.

Lemma get_In {V : Type} (k : K) (v : V) (d : dict K V) :
  get eqb k d = Some v -> In (k, v) d.
Proof.
  induction d as [|[k' v'] d IH]; simpl; [discriminate|].
  destruct (eqb k k') eqn:E.
  - apply eqb_eq in E. subst k'. intros [= ->]. now left.
  - intros H. right. now apply IH.
Qed.

Lemma get_None_keys {V : Type} (k : K) (d : dict K V) :
  get eqb k d = None <-> ~ In k (keys d).
Proof.
  induction d as [|[k' v'] d IH]; simpl.
  - split; [intros _ []|reflexivity].
  - destruct (eqb k k') eqn:E.
    + apply eqb_eq in E. subst k'. split; [discriminate|].
      intros H. exfalso. apply H. now left.
    + rewrite IH. split.
      * intros H [H1|H1]; [|now apply H].
        subst k'. rewrite eqb_refl' in E. discriminate.
      * intros H H1. apply H. now right.
Qed.

Lemma In_get {V : Type} (k : K) (v : V) (d : dict K V) :
  NoDup (keys d) -> In (k, v) d -> get eqb k d = Some v.
Proof.
  induction d as [|[k' v'] d IH]; simpl; [intros _ []|].
  intros Hnd [H|H].
  - injection H as -> ->. now rewrite eqb_refl'.
  - inversion Hnd as [|? ? Hk' Hd]; subst.
    destruct (eqb k k') eqn:E.
    + apply eqb_eq in E. subst k'. exfalso. apply Hk'.
      apply (in_map fst) in H. exact H.
    + now apply IH.
Qed.

Section Append.
Context {A : Type}.

Lemma keys_setdefault_append (k : K) (x : A) (d : dict K (list A)) :
  keys (setdefault_append eqb k x d)
  = if existsb (eqb k) (keys d) then keys d else keys d ++ [k].
Proof.
  induction d as [|[k' xs] d IH]; simpl; [reflexivity|].
  destruct (eqb k k') eqn:E; simpl; [reflexivity|].
  rewrite IH. now destruct (existsb (eqb k) (keys d)).
Qed.

Lemma NoDup_setdefault_append (k : K) (x : A) (d : dict K (list A)) :
  NoDup (keys d) -> NoDup (keys (setdefault_append eqb k x d)).
Proof.
  intros Hnd. rewrite keys_setdefault_append.
  destruct (existsb (eqb k) (keys d)) eqn:E; [exact Hnd|].
  apply NoDup_app; [exact Hnd|repeat constructor; intros []|].
  intros k' Hin [Hk|[]]. subst k'.
  assert (existsb (eqb k) (keys d) = true) as Hex
    by (apply existsb_exists; exists k; split; [exact Hin|apply eqb_refl']).
  congruence.
Qed.

Lemma get_setdefault_append_same (k : K) (x : A) (d : dict K (list A)) :
  get eqb k (setdefault_append eqb k x d)
  = Some (match get eqb k d with Some xs => xs ++ [x] | None => [x] end).
Proof.
  induction d as [|[k' xs] d IH]; simpl.
  - now rewrite eqb_refl'.
  - destruct (eqb k k') eqn:E; simpl; rewrite E; [reflexivity|exact IH].
Qed.

Lemma get_setdefault_append_other (k k0 : K) (x : A)
    (d : dict K (list A)) :
  k0 <> k ->
  get eqb k0 (setdefault_append eqb k x d) = get eqb k0 d.
Proof.
  intros Hne. induction d as [|[k' xs] d IH]; simpl.
  - now rewrite eqb_neq.
  - destruct (eqb k k') eqn:E; simpl.
    + apply eqb_eq in E. subst k'. now rewrite eqb_neq.
    + destruct (eqb k0 k'); [reflexivity|exact IH].
Qed.
End Append.

Section Grouped.
Context {X V : Type} (key : X -> option K) (val : X -> V).

Let step (d : dict K (list V)) (x : X) : dict K (list V) :=
  match key x with
  | Some k => setdefault_append eqb k (val x) d
  | None => d
  end.

Lemma NoDup_fold_step (xs : list X) (d : dict K (list V)) :
  NoDup (keys d) -> NoDup (keys (fold_left step xs d)).
Proof.
  revert d. induction xs as [|x xs IH]; intros d Hnd; simpl; [exact Hnd|].
  apply IH. unfold step. destruct (key x); [|exact Hnd].
  now apply NoDup_setdefault_append.
Qed.

Lemma get_fold_step (k : K) (xs : list X) (d : dict K (list V)) :
  get eqb k (fold_left step xs d)
  = match get eqb k d, selected eqb key val k xs with
    | Some vs, sel => Some (vs ++ sel)
    | None, [] => None
    | None, sel => Some sel
    end.
Proof.
  revert d. induction xs as [|x xs IH]; intros d; simpl.
  - destruct (get eqb k d); [now rewrite app_nil_r|reflexivity].
  - rewrite IH. unfold step, selected. simpl.
    destruct (key x) as [k'|]; [|reflexivity].
    destruct (eqb k k') eqn:E.
    + apply eqb_eq in E. subst k'.
      rewrite get_setdefault_append_same. simpl.
      destruct (get eqb k d); [now rewrite <- app_assoc|reflexivity].
    + rewrite get_setdefault_append_other; [reflexivity|].
      intros ->. rewrite eqb_refl' in E. discriminate.
Qed.

Lemma NoDup_grouped (xs : list X) :
  NoDup (keys (grouped eqb key val xs)).
Proof. apply NoDup_fold_step. constructor. Qed.

Lemma get_grouped (k : K) (xs : list X) :
  get eqb k (grouped eqb key val xs)
  = match selected eqb key val k xs with
    | [] => None
    | sel => Some sel
    end.
Proof. unfold grouped. now rewrite get_fold_step. Qed.

Lemma In_grouped (k : K) (vs : list V) (xs : list X) :
  In (k, vs) (grouped eqb key val xs)
  <-> vs = selected eqb key val k xs /\ vs <> [].
Proof.
  split.
  - intros Hin. apply In_get in Hin; [|apply NoDup_grouped].
    rewrite get_grouped in Hin.
    destruct (selected eqb key val k xs); [discriminate|].
    injection Hin as <-. split; [reflexivity|discriminate].
  - intros [-> Hne]. apply get_In. rewrite get_grouped.
    now destruct (selected eqb key val k xs).
Qed.
End Grouped.
End Grouping.

(** ** The loops of [find_duplicates], in closed form *)

Lemma grouped_map {X Y K V : Type} (eqb : K -> K -> bool) (f : X -> Y)
    (key : Y -> option K) (val : Y -> V) (xs : list X) :
  grouped eqb key val (map f xs)
  = grouped eqb (fun x => key (f x)) (fun x => val (f x)) xs.
Proof.
  unfold grouped. generalize (@nil (K * list V)).
  induction xs as [|x xs IH]; intros d; simpl; [reflexivity|apply IH].
Qed.

Lemma collect_files_flat_map (sys : system) (triples : list walk_triple) :
  collect_files sys triples
  = flat_map
      (fun t : walk_triple =>
         filter (fun p => negb (islink sys p))
           (map (join (fst (fst t))) (snd t)))
      triples.
Proof.
  unfold collect_files.
  match goal with
  | |- fold_left ?F _ _ = flat_map ?G _ =>
      assert (H : forall acc, fold_left F triples acc = acc ++ flat_map G triples)
  end; [|apply H].
  induction triples as [|[[dirName dirs] filenames] triples IH]; intros acc.
  - simpl. now rewrite app_nil_r.
  - cbn [fold_left flat_map fst snd]. rewrite IH, app_assoc. f_equal.
    clear IH. revert acc.
    induction filenames as [|filename filenames IHf]; intros acc; simpl.
    + now rewrite app_nil_r.
    + destruct (islink sys (join dirName filename)); simpl.
      * apply IHf.
      * rewrite IHf, <- app_assoc. reflexivity.
Qed.

Lemma size_pass_grouped (sys : system) (file_list : list string) :
  fst (size_pass sys file_list)
  = grouped Z.eqb (size_key sys) (fun p => p) file_list.
Proof.
  unfold size_pass, grouped.
  match goal with
  | |- fst (fold_left ?F _ _) = fold_left ?G _ _ =>
      assert (H : forall st, fst (fold_left F file_list st)
                             = fold_left G file_list (fst st))
  end; [|apply H].
  induction file_list as [|p file_list IH]; intros [size_map logged];
    [reflexivity|].
  cbn [fold_left]. rewrite IH. unfold size_key.
  now destruct (getsize sys p).
Qed.

Lemma fold_hashes_grouped (results : list (string * option string)) :
  fold_hashes results
  = grouped String.eqb (fun r => if truthy (snd r) then snd r else None) fst
      results.
Proof.
  unfold fold_hashes, grouped.
  match goal with
  | |- fold_left ?F _ _ = fold_left ?G _ _ =>
      assert (H : forall hashes, fold_left F results hashes
                                 = fold_left G results hashes)
  end; [|apply H].
  induction results as [|[path [d|]] results IH]; intros hashes;
    [reflexivity| |]; cbn [fold_left fst snd]; rewrite IH.
  - now destruct (truthy (Some d)).
  - reflexivity.
Qed.

Lemma setitem_fresh {V : Type} (k : string) (v : V) (d : dict string V) :
  ~ In k (keys d) -> setitem String.eqb k v d = d ++ [(k, v)].
Proof.
  induction d as [|[k' v'] d IH]; simpl; [reflexivity|].
  intros Hk. destruct (String.eqb_spec k k') as [->|_].
  - exfalso. apply Hk. now left.
  - rewrite IH; [reflexivity|]. intros H. apply Hk. now right.
Qed.

Lemma keep_groups_filter (hashes : dict string (list string)) :
  NoDup (keys hashes) ->
  keep_groups hashes = filter (fun item => 1 <? len (snd item)) hashes.
Proof.
  unfold keep_groups. intros Hnd.
  match goal with
  | |- fold_left ?F _ _ = filter ?P _ =>
      assert (H : forall acc,
                 (forall k, In k (keys acc) -> ~ In k (keys hashes)) ->
                 fold_left F hashes acc = acc ++ filter P hashes)
  end; [|apply H; intros k []].
  induction hashes as [|[h ps] hashes IH]; intros acc Hacc.
  - simpl. now rewrite app_nil_r.
  - cbn [fold_left filter snd]. inversion Hnd as [|? ? Hh Hnd']; subst.
    destruct (1 <? len ps).
    + rewrite setitem_fresh.
      * rewrite IH; [now rewrite <- app_assoc|exact Hnd'|].
        intros k Hk. unfold keys in Hk. rewrite map_app in Hk.
        apply in_app_or in Hk. destruct Hk as [Hk|[<-|[]]].
        -- intros Hin. apply (Hacc k Hk). now right.
        -- exact Hh.
      * intros Hin. apply (Hacc h Hin). now left.
    + apply IH; [exact Hnd'|].
      intros k Hk Hin. apply (Hacc k Hk). now right.
Qed.

Lemma tasks_of_map (potential_duplicates : dict Z (list string))
    (hash_algo : string) :
  tasks_of potential_duplicates hash_algo
  = map (fun p => (p, hash_algo)) (concat (values potential_duplicates)).
Proof.
  unfold tasks_of.
  match goal with
  | |- fold_left ?F ?gs _ = _ =>
      assert (H : forall groups acc,
                 fold_left F groups acc
                 = acc ++ map (fun p => (p, hash_algo)) (concat groups))
  end; [|apply H].
  induction groups as [|paths groups IH]; intros acc.
  - simpl. now rewrite app_nil_r.
  - cbn [fold_left concat]. rewrite IH, map_app, app_assoc. f_equal.
    clear IH. revert acc.
    induction paths as [|p paths IHp]; intros acc; simpl.
    + now rewrite app_nil_r.
    + rewrite IHp, <- app_assoc. reflexivity.
Qed.

Lemma total_to_hash_len (potential_duplicates : dict Z (list string)) :
  total_to_hash_of potential_duplicates
  = len (concat (values potential_duplicates)).
Proof.
  unfold total_to_hash_of.
  assert (H : forall groups acc,
             fold_left (fun (acc : Z) (paths : list string) => acc + len paths)
               groups acc
             = acc + len (concat groups)).
  { induction groups as [|paths groups IH]; intros acc; simpl.
    - unfold len. simpl. lia.
    - rewrite IH. unfold len. rewrite length_app. lia. }
  rewrite H. lia.
Qed.

(** ** The worker pool: results come back in the order of the tasks *)
Section PoolResults.
Local Open Scope nat_scope.
Context {T R : Type} (f : T -> R).

Let F (t : T) : option R := Some (f t).

Lemma all_filled_map_Some (l : list R) : all_filled (map Some l) = Some l.
Proof. induction l as [|r l IH]; simpl; [|rewrite IH]; reflexivity. Qed.

Lemma all_filled_Some (value : list (option R)) (l : list R) :
  all_filled value = Some l -> value = map Some l.
Proof.
  revert l. induction value as [|[r|] value IH]; intros l; simpl.
  - now intros [= <-].
  - destruct (all_filled value) as [l'|]; [|discriminate].
    intros [= <-]. simpl. now rewrite (IH l').
  - discriminate.
Qed.

Lemma chunksize_pos (processes n : nat) : 0 < n -> 0 < chunksize processes n.
Proof.
  intros Hn. unfold chunksize.
  destruct (Nat.eqb_spec n 0) as [->|_]; [lia|].
  destruct (Nat.eqb_spec (n mod (processes * 4)) 0) as [Hm|_]; [|lia].
  destruct (Nat.eq_dec (processes * 4) 0) as [Hz|Hz].
  - rewrite Hz in Hm. simpl in Hm. lia.
  - pose proof (Nat.div_mod_eq n (processes * 4)) as Hd.
    rewrite Hm in Hd.
    destruct (n / (processes * 4)); [|lia].
    rewrite Nat.mul_0_r in Hd. lia.
Qed.

Lemma div_bounds (cs j : nat) :
  0 < cs -> (j / cs) * cs <= j < (j / cs + 1) * cs.
Proof.
  intros Hcs. pose proof (Nat.div_mod_eq j cs) as Hd.
  pose proof (Nat.mod_upper_bound j cs) as Hm. nia.
Qed.

Lemma MapResult_set_inv (cs : nat) (tasks : list T) (reported : nat -> bool)
    (value : list (option R)) (i : nat) :
  0 < cs ->
  slots_inv f cs tasks reported value ->
  slots_inv f cs tasks (fun c => (c =? i) || reported c)
    (MapResult_set f cs tasks value i).
Proof.
  intros Hcs [Hlen Hnth]. unfold MapResult_set, set_slice, chunk.
  fold F. split.
  - rewrite !length_app, length_firstn, length_map, length_firstn,
      !length_skipn. lia.
  - intros j Hj. pose proof (div_bounds cs j Hcs) as Hq.
    specialize (Hnth j Hj).
    rewrite nth_error_app, length_firstn.
    destruct (Nat.ltb_spec j (Nat.min (i * cs) (length value))) as [H1|H1].
    + rewrite nth_error_firstn.
      destruct (Nat.ltb_spec j (i * cs)) as [_|?]; [|lia].
      destruct (Nat.eqb_spec (j / cs) i) as [E|_]; [nia|exact Hnth].
    + assert (Hlo : i * cs <= j) by lia.
      rewrite Nat.min_l by lia.
      rewrite nth_error_app, length_map, length_firstn, length_skipn.
      destruct (Nat.ltb_spec (j - i * cs)
                  (Nat.min cs (length tasks - i * cs))) as [H2|H2].
      * destruct (Nat.eqb_spec (j / cs) i) as [_|NE]; [|nia].
        simpl. rewrite !nth_error_map, nth_error_firstn, nth_error_skipn.
        destruct (Nat.ltb_spec (j - i * cs) cs) as [_|?]; [|lia].
        now replace (i * cs + (j - i * cs)) with j by lia.
      * assert (Hhi : (i + 1) * cs <= j) by lia.
        destruct (Nat.eqb_spec (j / cs) i) as [E|_]; [nia|].
        rewrite nth_error_skipn.
        replace ((i + 1) * cs
                 + (j - i * cs - Nat.min cs (length tasks - i * cs)))
          with j by lia.
        exact Hnth.
Qed.

Lemma fold_MapResult_set_inv (cs : nat) (tasks : list T) (order : list nat) :
  0 < cs ->
  forall (reported : nat -> bool) (value : list (option R)),
    slots_inv f cs tasks reported value ->
    slots_inv f cs tasks (fun c => existsb (Nat.eqb c) order || reported c)
      (fold_left (MapResult_set f cs tasks) order value).
Proof.
  intros Hcs. induction order as [|i order IH]; intros reported value Hinv.
  - exact Hinv.
  - cbn [fold_left].
    pose proof (IH _ _ (MapResult_set_inv cs tasks reported value i Hcs Hinv))
      as [Hlen Hnth].
    split; [exact Hlen|]. intros j Hj. rewrite (Hnth j Hj). simpl.
    now destruct (j / cs =? i), (existsb (Nat.eqb (j / cs)) order),
      (reported (j / cs)).
Qed.

Lemma slots_inv_start (cs : nat) (tasks : list T) :
  slots_inv f cs tasks (fun _ => false) (repeat None (length tasks)).
Proof.
  split; [apply repeat_length|]. intros j Hj. now apply nth_error_repeat.
Qed.

Lemma fold_MapResult_set_nil (cs : nat) (order : list nat) :
  fold_left (MapResult_set f cs []) order [] = [].
Proof.
  induction order as [|i order IH]; [reflexivity|].
  cbn [fold_left]. unfold MapResult_set at 2. unfold set_slice, chunk.
  rewrite !skipn_nil, !firstn_nil. exact IH.
Qed.

Lemma map_Some_inj (l l' : list R) : map Some l = map Some l' -> l = l'.
Proof.
  revert l'. induction l as [|r l IH]; intros [|r' l']; simpl;
    try discriminate; [reflexivity|].
  intros [= -> H]. now rewrite (IH l').
Qed.

(** Whenever the pool hands results back, they are those of the tasks,
    in the order of the tasks. *)
Lemma starmap_sound (processes : nat) (order : list nat) (tasks : list T)
    (results : list R) :
  starmap processes order f tasks = Some results -> results = map f tasks.
Proof.
  unfold starmap. set (n := length tasks). set (cs := chunksize processes n).
  destruct (length order =? number_of_chunks cs n); [|discriminate].
  intros Hall. apply all_filled_Some in Hall.
  destruct (Nat.eq_dec n 0) as [Hn|Hn].
  - destruct tasks; [|discriminate]. subst n. simpl in Hall.
    rewrite fold_MapResult_set_nil in Hall.
    destruct results; [reflexivity|discriminate].
  - assert (Hcs : 0 < cs) by (apply chunksize_pos; lia).
    destruct (fold_MapResult_set_inv cs tasks order Hcs _ _
                (slots_inv_start cs tasks)) as [Hlen Hnth].
    fold n in Hlen, Hnth. rewrite Hall in Hlen, Hnth.
    apply map_Some_inj. rewrite map_map. fold F.
    apply nth_error_ext. intros j.
    destruct (Nat.lt_ge_cases j n) as [Hj|Hj].
    + rewrite (Hnth j Hj).
      destruct (existsb _ order || false) eqn:E; [reflexivity|].
      exfalso. specialize (Hnth j Hj). rewrite E in Hnth.
      rewrite nth_error_map in Hnth.
      destruct (nth_error results j); discriminate.
    + rewrite length_map in Hlen.
      transitivity (@None (option R)); [|symmetry];
        apply nth_error_None; rewrite length_map; fold n; lia.
Qed.

(** When every chunk is reported exactly once, in whatever order, the
    pool hands the results back. *)
Lemma starmap_complete (processes : nat) (order : list nat)
    (tasks : list T) :
  Permutation order
    (seq 0 (number_of_chunks (chunksize processes (length tasks))
              (length tasks))) ->
  starmap processes order f tasks = Some (map f tasks).
Proof.
  intros Hperm. unfold starmap.
  set (n := length tasks) in *. set (cs := chunksize processes n) in *.
  rewrite (Permutation_length Hperm), length_seq, Nat.eqb_refl.
  destruct (Nat.eq_dec n 0) as [Hn|Hn].
  - destruct tasks; [|discriminate]. subst n. simpl.
    now rewrite fold_MapResult_set_nil.
  - assert (Hcs : 0 < cs) by (apply chunksize_pos; lia).
    destruct (fold_MapResult_set_inv cs tasks order Hcs _ _
                (slots_inv_start cs tasks)) as [Hlen Hnth].
    fold n in Hlen, Hnth.
    replace (fold_left (MapResult_set f cs tasks) order (repeat None n))
      with (map Some (map f tasks)); [apply all_filled_map_Some|].
    rewrite map_map. fold F. apply nth_error_ext. intros j.
    destruct (Nat.lt_ge_cases j n) as [Hj|Hj].
    + rewrite (Hnth j Hj).
      replace (existsb (Nat.eqb (j / cs)) order) with true; [reflexivity|].
      symmetry. apply existsb_exists. exists (j / cs).
      split; [|apply Nat.eqb_refl].
      apply (Permutation_in _ (Permutation_sym Hperm)).
      apply in_seq. split; [lia|]. simpl.
      unfold number_of_chunks.
      destruct (Nat.eqb_spec cs 0) as [?|_]; [lia|].
      pose proof (div_bounds cs j Hcs) as Hq.
      pose proof (Nat.div_mod_eq n cs) as Hd.
      pose proof (Nat.mod_upper_bound n cs) as Hm.
      destruct (Nat.eqb_spec (n mod cs) 0) as [Hz|Hz]; nia.
    + transitivity (@None (option R)); [|symmetry];
        apply nth_error_None; rewrite ?length_map; fold n; lia.
Qed.
End PoolResults.

(** ** [find_duplicates] as a whole *)

Lemma find_duplicates_unfold (hl : hashlib) (sys : system) (top algo : string)
    (triples : list walk_triple) :
  walk sys top = inr triples ->
  find_duplicates hl sys top algo
  = let logged :=
      (INFO, Pass1_grouping) :: snd (size_pass sys (file_list_of sys top)) in
    if len (candidates sys top) =? 0 then (logged, Returned [])
    else
      match starmap (Pos.to_nat (cpu_count sys)) (completion sys)
              (process_file_for_hashing hl sys)
              (map (fun p => (p, algo)) (candidates sys top)) with
      | None => (logged ++ [(INFO, Pass2_hashing)], Blocked)
      | Some results =>
          (logged ++ [(INFO, Pass2_hashing)],
           Returned (keep_groups (fold_hashes results)))
      end.
Proof.
  intros Hwalk. unfold find_duplicates, candidates, size_map_of, file_list_of.
  rewrite Hwalk.
  destruct (size_pass sys (collect_files sys triples)) as [size_map warnings].
  cbn [fst snd]. now rewrite total_to_hash_len, tasks_of_map.
Qed.

Lemma keep_fold_results (hl : hashlib) (sys : system) (top algo : string) :
  keep_groups
    (fold_hashes
       (map (process_file_for_hashing hl sys)
          (map (fun p => (p, algo)) (candidates sys top))))
  = scan_result hl sys top algo.
Proof.
  rewrite fold_hashes_grouped, !grouped_map.
  rewrite keep_groups_filter; [reflexivity|].
  apply NoDup_grouped. apply String.eqb_eq.
Qed.

(** A scan that returns, returns [scan_result]. *)
Lemma find_duplicates_Returned (hl : hashlib) (sys : system)
    (top algo : string) (logged : list log_record)
    (groups : dict string (list string)) :
  find_duplicates hl sys top algo = (logged, Returned groups) ->
  groups = scan_result hl sys top algo.
Proof.
  destruct (walk sys top) as [e|triples] eqn:Hwalk.
  - unfold find_duplicates. rewrite Hwalk. destruct e; discriminate.
  - rewrite (find_duplicates_unfold hl sys top algo triples Hwalk).
    cbv zeta.
    destruct (Z.eqb_spec (len (candidates sys top)) 0) as [Hz|Hz].
    + intros [= _ <-]. unfold scan_result.
      destruct (candidates sys top); [reflexivity|].
      unfold len in Hz. simpl in Hz. lia.
    + destruct (starmap _ _ _ _) as [results|] eqn:Hpool; [|discriminate].
      intros [= _ <-]. apply starmap_sound in Hpool. subst results.
      apply keep_fold_results.
Qed.

(** A scan whose walk succeeds and whose workers all report, returns. *)
Lemma find_duplicates_complete (hl : hashlib) (sys : system)
    (top algo : string) (triples : list walk_triple) :
  walk sys top = inr triples ->
  schedule_ok sys (length (candidates sys top)) ->
  exists logged,
    find_duplicates hl sys top algo
    = (logged, Returned (scan_result hl sys top algo))
    /\ logged
       = (INFO, Pass1_grouping) :: snd (size_pass sys (file_list_of sys top))
         ++ (if len (candidates sys top) =? 0 then []
             else [(INFO, Pass2_hashing)]).
Proof.
  intros Hwalk Hok.
  rewrite (find_duplicates_unfold hl sys top algo triples Hwalk). cbv zeta.
  destruct (Z.eqb_spec (len (candidates sys top)) 0) as [Hz|Hz].
  - eexists. split; [|reflexivity]. rewrite app_nil_r. f_equal.
    unfold scan_result.
    destruct (candidates sys top); [reflexivity|].
    unfold len in Hz. simpl in Hz. lia.
  - eexists. split; [|reflexivity].
    rewrite starmap_complete.
    + now rewrite keep_fold_results.
    + rewrite length_map. exact Hok.
Qed.

Example find_duplicates_example_a :
  find_duplicates Example.toy_hashlib Example.sys_a Example.top "sha256"
  = ([(INFO, Pass1_grouping); (INFO, Pass2_hashing)],
     Returned Example.groups).
Proof. vm_compute. reflexivity. Qed.

Example find_duplicates_example_b :
  find_duplicates Example.toy_hashlib Example.sys_b Example.top "md5"
  = ([(INFO, Pass1_grouping); (INFO, Pass2_hashing)],
     Returned Example.groups).
Proof. vm_compute. reflexivity. Qed.

Lemma schedule_ok_example_a :
  schedule_ok Example.sys_a (length (candidates Example.sys_a Example.top)).
Proof. unfold schedule_ok. vm_compute. apply Permutation_refl. Defined.

Lemma schedule_ok_example_b :
  schedule_ok Example.sys_b (length (candidates Example.sys_b Example.top)).
Proof.
  unfold schedule_ok. vm_compute.
  apply Permutation_sym. exact (Permutation_rev [0; 1; 2; 3]%nat).
Defined.

(** ** Determinism of the scan *)

(** C2: two scans of the same tree (the same walk, link tests, sizes and
    file contents) return the same mapping, keys and members in the same
    order, and log the same records, whatever the number of worker processes
    and whatever the order in which the workers report their chunks, as long
    as each chunk is reported once; and neither scan stays blocked. *)
Theorem find_duplicates_deterministic (hl : hashlib)
    (w : string -> exn + list walk_triple) (l : string -> bool)
    (g : string -> exn + Z) (o : string -> exn + handle)
    (cpus1 cpus2 : positive) (order1 order2 : list nat) (top algo : string) :
  let sys1 := mkSystem w l g o cpus1 order1 in
  let sys2 := mkSystem w l g o cpus2 order2 in
  schedule_ok sys1 (length (candidates sys1 top)) ->
  schedule_ok sys2 (length (candidates sys2 top)) ->
  find_duplicates hl sys1 top algo = find_duplicates hl sys2 top algo
  /\ snd (find_duplicates hl sys1 top algo) <> Blocked.
Proof.
  intros sys1 sys2 Hok1 Hok2.
  destruct (w top) as [e|triples] eqn:Hwalk.
  - unfold find_duplicates. cbn [walk sys1 sys2]. rewrite Hwalk.
    split; [reflexivity|]. destruct e; discriminate.
  - destruct (find_duplicates_complete hl sys1 top algo triples Hwalk Hok1)
      as [logged1 [E1 L1]].
    destruct (find_duplicates_complete hl sys2 top algo triples Hwalk Hok2)
      as [logged2 [E2 L2]].
    rewrite E1, E2. split; [|discriminate].
    rewrite L1, L2. reflexivity.
Qed.

Lemma find_duplicates_deterministic_witness :
  find_duplicates Example.toy_hashlib Example.sys_a Example.top "sha256"
  = find_duplicates Example.toy_hashlib Example.sys_b Example.top "sha256"
  /\ snd (find_duplicates Example.toy_hashlib Example.sys_a Example.top "sha256")
     <> Blocked.
Proof.
  exact (find_duplicates_deterministic Example.toy_hashlib
           (walk Example.sys_a) (islink Example.sys_a)
           (getsize Example.sys_a) (open_rb Example.sys_a)
           2 1 [0; 1; 2; 3; 4; 5; 6]%nat [3; 2; 1; 0]%nat Example.top "sha256"
           schedule_ok_example_a schedule_ok_example_b).
Defined.

(** ** Size groups and digest groups *)

Lemma selected_id {X K : Type} (eqb : K -> K -> bool) (key : X -> option K)
    (k : K) (xs : list X) :
  selected eqb key (fun x => x) k xs
  = filter (fun x => match key x with Some k' => eqb k k' | None => false end)
      xs.
Proof. unfold selected. apply map_id. Qed.

(** A size group holds the collected files of that size, in the order of
    the walk. *)
Lemma size_map_of_In (sys : system) (top : string) (size : Z)
    (paths : list string) :
  In (size, paths) (size_map_of sys top)
  <-> paths = filter (has_size sys size) (file_list_of sys top) /\ paths <> [].
Proof.
  unfold size_map_of. rewrite size_pass_grouped.
  rewrite (In_grouped Z.eqb Z.eqb_eq). now rewrite selected_id.
Qed.

Lemma has_size_key (sys : system) (size : Z) (p : string) :
  has_size sys size p = true <-> size_key sys p = Some size.
Proof.
  unfold has_size. destruct (size_key sys p) as [s|].
  - rewrite Z.eqb_eq. split; [now intros ->|now intros [= ->]].
  - split; discriminate.
Qed.

Lemma has_digest_key (hl : hashlib) (sys : system) (algo h p : string) :
  has_digest hl sys algo h p = true <-> digest_key hl sys algo p = Some h.
Proof.
  unfold has_digest. destruct (digest_key hl sys algo p) as [h'|].
  - rewrite String.eqb_eq. split; [now intros ->|now intros [= ->]].
  - split; discriminate.
Qed.

Lemma len_gt_1 {A : Type} (xs : list A) :
  (1 <? len xs) = true <-> (2 <= length xs)%nat.
Proof. unfold len. rewrite Z.ltb_lt. lia. Qed.

Lemma candidates_In (sys : system) (top p : string) :
  In p (candidates sys top)
  <-> exists size paths,
        In (size, paths) (size_map_of sys top)
        /\ (2 <= length paths)%nat /\ In p paths.
Proof.
  unfold candidates, values, potential_duplicates_of.
  rewrite in_concat. split.
  - intros [paths [Hin Hp]]. apply in_map_iff in Hin.
    destruct Hin as [[size paths'] [<- Hin]]. apply filter_In in Hin.
    destruct Hin as [Hin Hlen]. exists size, paths'.
    split; [exact Hin|]. split; [now apply len_gt_1|exact Hp].
  - intros [size [paths [Hin [Hlen Hp]]]]. exists paths. split; [|exact Hp].
    apply in_map_iff. exists (size, paths). split; [reflexivity|].
    apply filter_In. split; [exact Hin|now apply len_gt_1].
Qed.

(** A group of the returned mapping holds the candidates of that digest,
    in the order of the candidates, and there are at least two. *)
Lemma scan_result_In (hl : hashlib) (sys : system) (top algo h : string)
    (members : list string) :
  In (h, members) (scan_result hl sys top algo)
  <-> members = filter (has_digest hl sys algo h) (candidates sys top)
      /\ (2 <= length members)%nat.
Proof.
  unfold scan_result. rewrite filter_In. cbn [snd].
  rewrite (In_grouped String.eqb String.eqb_eq), selected_id, len_gt_1.
  split.
  - now intros [[-> _] Hlen].
  - intros [-> Hlen]. repeat split; try exact Hlen.
    intros E. rewrite E in Hlen. simpl in Hlen. lia.
Qed.

(** A member of a group was hashed to the key of the group. *)
Lemma group_member_digest (hl : hashlib) (sys : system) (top algo h : string)
    (members : list string) (p : string) :
  In (h, members) (scan_result hl sys top algo) -> In p members ->
  digest_of hl sys algo p = Some h.
Proof.
  intros Hin Hp. apply scan_result_In in Hin.
  destruct Hin as [-> _]. apply filter_In in Hp. destruct Hp as [_ Hp].
  apply has_digest_key in Hp. unfold digest_key in Hp.
  now destruct (truthy (digest_of hl sys algo p)).
Qed.

(** ** What reaches the hashing stage *)

(** C6: the paths handed to the pool are exactly the paths of the size
    groups with two members or more; the only file of its size is never
    handed over; and the pool is called on these paths, paired with the
    algorithm, unless there is none, in which case nothing is hashed and the
    empty mapping is returned. *)
Theorem only_size_collisions_are_hashed (hl : hashlib) (sys : system)
    (top algo : string) (triples : list walk_triple) :
  walk sys top = inr triples ->
  (forall p,
     In p (candidates sys top)
     <-> exists size paths,
           In (size, paths) (size_map_of sys top)
           /\ (2 <= length paths)%nat /\ In p paths)
  /\ (forall size p,
        In (size, [p]) (size_map_of sys top) -> ~ In p (candidates sys top))
  /\ tasks_of (potential_duplicates_of
                 (fst (size_pass sys (collect_files sys triples)))) algo
     = map (fun p => (p, algo)) (candidates sys top)
  /\ find_duplicates hl sys top algo
     = let logged :=
         (INFO, Pass1_grouping) :: snd (size_pass sys (file_list_of sys top)) in
       if len (candidates sys top) =? 0 then (logged, Returned [])
       else
         match starmap (Pos.to_nat (cpu_count sys)) (completion sys)
                 (process_file_for_hashing hl sys)
                 (map (fun p => (p, algo)) (candidates sys top)) with
         | None => (logged ++ [(INFO, Pass2_hashing)], Blocked)
         | Some results =>
             (logged ++ [(INFO, Pass2_hashing)],
              Returned (keep_groups (fold_hashes results)))
         end.
Proof.
  intros Hwalk. split; [intros p; apply candidates_In|]. split; [|split].
  - intros size p Hone Hin. apply candidates_In in Hin.
    destruct Hin as [size' [paths [Hgroup [Hlen Hp]]]].
    apply size_map_of_In in Hone. destruct Hone as [Hone _].
    apply size_map_of_In in Hgroup. destruct Hgroup as [Hgroup _].
    assert (Hs : size_key sys p = Some size).
    { apply has_size_key.
      assert (Hin : In p [p]) by now left.
      rewrite Hone in Hin. now apply filter_In in Hin. }
    assert (Hs' : size_key sys p = Some size').
    { apply has_size_key. rewrite Hgroup in Hp. now apply filter_In in Hp. }
    assert (size' = size) by congruence. subst size'.
    rewrite <- Hone in Hgroup. subst paths. simpl in Hlen. lia.
  - rewrite tasks_of_map. unfold candidates, size_map_of, file_list_of.
    now rewrite Hwalk.
  - exact (find_duplicates_unfold hl sys top algo triples Hwalk).
Qed.

(** ** The groups of the returned mapping *)

(** C7: every group of the mapping a scan returns has two members or more,
    every member was hashed to the key of its group (a path whose hash came
    back absent is in no group), and a digest that only one hashed path has
    is not a key of the mapping. *)
Theorem groups_have_two_hashed_members (hl : hashlib) (sys : system)
    (top algo : string) (logged : list log_record)
    (groups : dict string (list string)) :
  find_duplicates hl sys top algo = (logged, Returned groups) ->
  (forall h members,
     In (h, members) groups ->
     (2 <= length members)%nat
     /\ forall p, In p members -> digest_of hl sys algo p = Some h)
  /\ (forall p,
        digest_of hl sys algo p = None ->
        forall h members, In (h, members) groups -> ~ In p members)
  /\ (forall h p,
        filter (has_digest hl sys algo h) (candidates sys top) = [p] ->
        ~ In h (keys groups)).
Proof.
  intros Hret. apply find_duplicates_Returned in Hret. subst groups.
  split; [|split].
  - intros h members Hin. split; [now apply scan_result_In in Hin|].
    intros p Hp. exact (group_member_digest _ _ _ _ _ _ _ Hin Hp).
  - intros p Hnone h members Hin Hp.
    rewrite (group_member_digest _ _ _ _ _ _ _ Hin Hp) in Hnone.
    discriminate.
  - intros h p Hone Hin. apply in_map_iff in Hin.
    destruct Hin as [[h' members] [E Hin]]. simpl in E. subst h'.
    apply scan_result_In in Hin. destruct Hin as [-> Hlen].
    rewrite Hone in Hlen. simpl in Hlen. lia.
Qed.

Lemma only_size_collisions_are_hashed_witness :
  walk Example.sys_a Example.top = inr (os_walk Example.top Example.tree)
  /\ In "/data/sub/f1" (candidates Example.sys_a Example.top)
  /\ ~ In "/data/sub/long.txt" (candidates Example.sys_a Example.top).
Proof.
  pose proof (only_size_collisions_are_hashed Example.toy_hashlib
                Example.sys_a Example.top "sha256"
                (os_walk Example.top Example.tree) eq_refl)
    as [Hiff [Hone _]].
  split; [reflexivity|]. split.
  - apply Hiff.
    exists 2, ["/data/f2"; "/data/sub/f1"].
    vm_compute. repeat split; auto 10.
  - apply (Hone 21). vm_compute. auto 10.
Defined.

Lemma groups_have_two_hashed_members_witness :
  find_duplicates Example.toy_hashlib Example.sys_a Example.top "sha256"
  = ([(INFO, Pass1_grouping); (INFO, Pass2_hashing)], Returned Example.groups)
  /\ digest_of Example.toy_hashlib Example.sys_a "sha256" "/data/b.txt"
     = Some "h:X".
Proof.
  assert (E : find_duplicates Example.toy_hashlib Example.sys_a Example.top
                "sha256"
              = ([(INFO, Pass1_grouping); (INFO, Pass2_hashing)],
                 Returned Example.groups))
    by (vm_compute; reflexivity).
  split; [exact E|].
  destruct (groups_have_two_hashed_members _ _ _ _ _ _ E) as [Hin _].
  apply (Hin "h:X" ["/data/a.txt"; "/data/b.txt"; "/data/sub/d.txt"]).
  - left. reflexivity.
  - right. left. reflexivity.
Defined.

(** ** Order inside a group *)

Lemma filter_all {A : Type} (f : A -> bool) (l : list A) :
  (forall x, In x l -> f x = true) -> filter f l = l.
Proof.
  induction l as [|a l IH]; intros H; simpl; [reflexivity|].
  rewrite (H a (or_introl eq_refl)), IH; [reflexivity|].
  intros x Hx. apply H. now right.
Qed.

Lemma filter_none {A : Type} (f : A -> bool) (l : list A) :
  (forall x, In x l -> f x = false) -> filter f l = [].
Proof.
  induction l as [|a l IH]; intros H; simpl; [reflexivity|].
  rewrite (H a (or_introl eq_refl)). apply IH.
  intros x Hx. apply H. now right.
Qed.

Lemma filter_swap {A : Type} (f g : A -> bool) (l : list A) :
  filter f (filter g l) = filter g (filter f l).
Proof.
  induction l as [|a l IH]; simpl; [reflexivity|].
  destruct (f a) eqn:Ef, (g a) eqn:Eg; simpl; rewrite ?Ef, ?Eg, IH;
    reflexivity.
Qed.

(** In a dictionary whose groups hold only elements of their own key, the
    elements of key [s] among all the kept groups are the group of [s]. *)
Lemma filter_concat_groups {A : Type} (key : A -> option Z)
    (keep : Z * list A -> bool) (d : dict Z (list A)) (s : Z) (g : list A) :
  NoDup (keys d) ->
  (forall k xs x, In (k, xs) d -> In x xs -> key x = Some k) ->
  In (s, g) d -> keep (s, g) = true ->
  filter (fun x => match key x with Some k => s =? k | None => false end)
    (concat (values (filter keep d)))
  = g.
Proof.
  set (sel := fun x => match key x with Some k => s =? k | None => false end).
  assert (Hother : forall d',
             ~ In s (keys d') ->
             (forall k xs x, In (k, xs) d' -> In x xs -> key x = Some k) ->
             filter sel (concat (values (filter keep d'))) = []).
  { induction d' as [|[k xs] d' IH]; intros Hs Hown; [reflexivity|].
    simpl. assert (Hrest : filter sel (concat (values (filter keep d'))) = []).
    { apply IH.
      - intros H. apply Hs. now right.
      - intros k' xs' x Hin. apply Hown. now right. }
    destruct (keep (k, xs)); [|exact Hrest].
    simpl. rewrite filter_app, Hrest, app_nil_r.
    apply filter_none. intros x Hx. unfold sel.
    rewrite (Hown k xs x (or_introl eq_refl) Hx).
    apply Z.eqb_neq. intros ->. apply Hs. now left. }
  induction d as [|[k xs] d IH]; intros Hnd Hown Hin Hkeep; [destruct Hin|].
  inversion Hnd as [|? ? Hk Hnd']; subst. destruct Hin as [E|Hin].
  - injection E as -> ->. simpl. rewrite Hkeep. simpl.
    rewrite filter_app, Hother.
    + rewrite app_nil_r. apply filter_all. intros x Hx. unfold sel.
      rewrite (Hown s g x (or_introl eq_refl) Hx). apply Z.eqb_refl.
    + exact Hk.
    + intros k' xs' x Hin'. apply Hown. now right.
  - assert (Hne : k <> s).
    { intros ->. apply Hk. apply (in_map fst) in Hin. exact Hin. }
    assert (Hrest : filter sel (concat (values (filter keep d))) = g).
    { apply IH; try assumption. intros k' xs' x Hin'. apply Hown. now right. }
    simpl. destruct (keep (k, xs)); [|exact Hrest].
    simpl. rewrite filter_app, Hrest.
    rewrite filter_none; [reflexivity|].
    intros x Hx. unfold sel. rewrite (Hown k xs x (or_introl eq_refl) Hx).
    apply Z.eqb_neq. congruence.
Qed.

Lemma candidates_of_size (sys : system) (top : string) (size : Z)
    (paths : list string) :
  In (size, paths) (size_map_of sys top) -> (2 <= length paths)%nat ->
  filter (has_size sys size) (candidates sys top) = paths.
Proof.
  intros Hin Hlen. unfold candidates, potential_duplicates_of, has_size.
  apply (filter_concat_groups (size_key sys)).
  - unfold size_map_of. rewrite size_pass_grouped.
    apply NoDup_grouped. apply Z.eqb_eq.
  - intros k xs x Hk Hx. apply size_map_of_In in Hk. destruct Hk as [-> _].
    apply filter_In in Hx. now apply has_size_key.
  - exact Hin.
  - now apply len_gt_1.
Qed.

(** C8: a group of the returned mapping lists the candidates of its digest
    in the order of the candidates, which is the order of the size groups;
    so the members of a group that come from one size group stand in the
    order that size group has them, and a size group has its files in the
    order the walk collected them.  This holds for every pool size and every
    order in which the workers report. *)
Theorem group_members_keep_walk_order (hl : hashlib) (sys : system)
    (top algo : string) (logged : list log_record)
    (groups : dict string (list string)) (h : string) (members : list string) :
  find_duplicates hl sys top algo = (logged, Returned groups) ->
  In (h, members) groups ->
  members = filter (has_digest hl sys algo h) (candidates sys top)
  /\ (forall size paths,
        In (size, paths) (size_map_of sys top) -> (2 <= length paths)%nat ->
        filter (has_size sys size) members
        = filter (has_digest hl sys algo h) paths)
  /\ (forall size paths,
        In (size, paths) (size_map_of sys top) ->
        paths = filter (has_size sys size) (file_list_of sys top)).
Proof.
  intros Hret Hin. apply find_duplicates_Returned in Hret. subst groups.
  apply scan_result_In in Hin. destruct Hin as [Hmem _].
  split; [exact Hmem|]. split.
  - intros size paths Hgroup Hlen. rewrite Hmem, filter_swap.
    now rewrite (candidates_of_size sys top size paths Hgroup Hlen).
  - intros size paths Hgroup. now apply size_map_of_In in Hgroup.
Qed.

Lemma group_members_keep_walk_order_witness :
  find_duplicates Example.toy_hashlib Example.sys_b Example.top "md5"
  = ([(INFO, Pass1_grouping); (INFO, Pass2_hashing)], Returned Example.groups)
  /\ In ("h:X", ["/data/a.txt"; "/data/b.txt"; "/data/sub/d.txt"])
       Example.groups
  /\ ["/data/a.txt"; "/data/b.txt"; "/data/sub/d.txt"]
     = filter (has_digest Example.toy_hashlib Example.sys_b "md5" "h:X")
         (candidates Example.sys_b Example.top).
Proof.
  assert (E : find_duplicates Example.toy_hashlib Example.sys_b Example.top
                "md5"
              = ([(INFO, Pass1_grouping); (INFO, Pass2_hashing)],
                 Returned Example.groups))
    by (vm_compute; reflexivity).
  assert (Hin : In ("h:X", ["/data/a.txt"; "/data/b.txt"; "/data/sub/d.txt"])
                  Example.groups) by (left; reflexivity).
  split; [exact E|]. split; [exact Hin|].
  exact (proj1 (group_members_keep_walk_order _ _ _ _ _ _ _ _ E Hin)).
Defined.

(** ** [hashfile] *)

Lemma read_loop_step (blocksize : Z) (file : handle) (fed : list byte) :
  read_loop blocksize file fed
  = match read blocksize file with
    | inl e => inl e
    | inr ([], _) => inr fed
    | inr (b :: bf, file') => read_loop blocksize file' (fed ++ b :: bf)
    end.
Proof.
  funelim (read_loop blocksize file fed);
    match goal with H : read _ _ = _ |- _ => rewrite H end; reflexivity.
Qed.

(** What one read returns when the length is positive or -1. *)
Lemma read_whole_chunk (blocksize : Z) (file file' : handle)
    (buf : list byte) :
  0 < blocksize \/ blocksize = -1 ->
  read blocksize file = inr (buf, file') ->
  buf ++ remaining file' = remaining file
  /\ until_fault file' = option_map pred (until_fault file)
  /\ buffer_limit file' = buffer_limit file
  /\ (buf = [] -> remaining file = []).
Proof.
  intros Hbs. unfold read.
  destruct ((blocksize <? - ssize_max - 1) || (bytes_max <? blocksize));
    [discriminate|].
  destruct (Z.ltb_spec blocksize (-1)) as [?|_]; [lia|].
  destruct (Z.eqb_spec blocksize 0) as [?|_]; [lia|].
  destruct ((0 <? blocksize) && (buffer_limit file <? blocksize));
    [discriminate|].
  set (k := if blocksize =? -1 then length (remaining file)
            else Nat.min (Z.to_nat blocksize) (length (remaining file))).
  assert (Hk : k = 0%nat -> remaining file = []).
  { subst k. destruct (Z.eqb_spec blocksize (-1)) as [_|Hne].
    - now intros ->%length_zero_iff_nil.
    - intros Hmin. apply length_zero_iff_nil. lia. }
  clearbody k.
  assert (Hnil : firstn k (remaining file) = [] -> remaining file = []).
  { intros Hnil. destruct k as [|k']; [now apply Hk|].
    destruct (remaining file); [reflexivity|discriminate]. }
  destruct (until_fault file) as [[|u]|]; [discriminate| |];
    (destruct ((blocksize =? -1)
               && (buffer_limit file <? Z.of_nat (length (remaining file))));
       [discriminate|]);
    intros [= <- <-]; simpl;
    (split; [apply firstn_skipn|]; split; [reflexivity|];
     split; [reflexivity|exact Hnil]).
Qed.

(** When the loop ends normally on a positive length (or on -1), every
    byte of the file has been fed to the hasher. *)
Lemma read_loop_feeds_everything (blocksize : Z) :
  0 < blocksize \/ blocksize = -1 ->
  forall (file : handle) (fed out : list byte),
    read_loop blocksize file fed = inr out -> out = fed ++ remaining file.
Proof.
  intros Hbs file.
  remember (length (remaining file)) as n eqn:Hn. revert file Hn.
  induction n as [n IH] using lt_wf_ind. intros file Hn fed out.
  rewrite read_loop_step.
  destruct (read blocksize file) as [e|[[|b bf] file']] eqn:E; [discriminate| |].
  - intros [= <-].
    destruct (read_whole_chunk _ _ _ _ Hbs E) as [_ [_ [_ Hnil]]].
    now rewrite Hnil, app_nil_r.
  - intros Hout.
    destruct (read_whole_chunk _ _ _ _ Hbs E) as [Hsplit _].
    apply (IH (length (remaining file'))) in Hout; [|subst n|reflexivity].
    + now rewrite Hout, <- app_assoc, Hsplit.
    + rewrite <- Hsplit, length_app. simpl. lia.
Qed.

Lemma buffer_fits_length (blocksize : Z) (file : handle) :
  buffer_fits blocksize file -> 0 < blocksize \/ blocksize = -1.
Proof. intros [[H _]|[H _]]; [left; lia|right; exact H]. Qed.

(** With a buffer that fits, a read fails on a device fault only. *)
Lemma read_fits (blocksize : Z) (file : handle) :
  buffer_fits blocksize file -> until_fault file = None ->
  exists buf file', read blocksize file = inr (buf, file').
Proof.
  intros Hfit Hnone. unfold read. rewrite Hnone.
  assert (Hrange : (blocksize <? - ssize_max - 1) || (bytes_max <? blocksize)
                   = false).
  { apply orb_false_iff. unfold buffer_fits, bytes_max, ssize_max in *.
    split; [apply Z.ltb_ge|apply Z.ltb_ge]; lia. }
  rewrite Hrange.
  destruct (Z.ltb_spec blocksize (-1)) as [?|_];
    [destruct Hfit as [[? _]|[? _]]; lia|].
  destruct (Z.eqb_spec blocksize 0) as [?|_];
    [destruct Hfit as [[? _]|[? _]]; lia|].
  assert (Hpos : (0 <? blocksize) && (buffer_limit file <? blocksize) = false).
  { destruct Hfit as [[_ Hle]|[-> _]]; [|reflexivity].
    apply andb_false_iff. right. apply Z.ltb_ge. exact Hle. }
  rewrite Hpos.
  assert (Hall : (blocksize =? -1)
                 && (buffer_limit file <? Z.of_nat (length (remaining file)))
                 = false).
  { destruct Hfit as [[Hb _]|[_ Hle]].
    - apply andb_false_iff. left. apply Z.eqb_neq. lia.
    - apply andb_false_iff. right. apply Z.ltb_ge. exact Hle. }
  rewrite Hall. eauto.
Qed.

(** On a file without read fault, read with a buffer that fits, the loop
    does end normally. *)
Lemma read_loop_no_fault (blocksize : Z) :
  forall (file : handle) (fed : list byte),
    buffer_fits blocksize file ->
    until_fault file = None ->
    read_loop blocksize file fed = inr (fed ++ remaining file).
Proof.
  intros file.
  remember (length (remaining file)) as n eqn:Hn. revert file Hn.
  induction n as [n IH] using lt_wf_ind. intros file Hn fed Hfit Hnone.
  pose proof (buffer_fits_length _ _ Hfit) as Hbs.
  rewrite read_loop_step.
  destruct (read_fits _ _ Hfit Hnone) as [buf [file' E]]. rewrite E.
  destruct (read_whole_chunk _ _ _ _ Hbs E) as [Hsplit [Huf [Hlim Hnil]]].
  destruct buf as [|b bf].
  - now rewrite Hnil, app_nil_r.
  - rewrite (IH (length (remaining file'))); [|subst n|reflexivity| |].
    + now rewrite <- app_assoc, Hsplit.
    + rewrite <- Hsplit, length_app. simpl. lia.
    + destruct Hfit as [Hpos|[Hall Hle]].
      * left. now rewrite Hlim.
      * right. split; [exact Hall|]. rewrite Hlim. unfold len in *.
        rewrite <- Hsplit, length_app in Hle. lia.
    + now rewrite Huf, Hnone.
Qed.

(** With length 0 the loop ends at once and nothing is fed. *)
Lemma read_loop_zero (file : handle) (fed : list byte) :
  read_loop 0 file fed = inr fed.
Proof. rewrite read_loop_step. reflexivity. Qed.

(** A length below -1 is refused at the first read: with [ValueError]
    when it is an index, with [OverflowError] when it is not. *)
Lemma read_loop_refused (blocksize : Z) (file : handle) (fed : list byte) :
  blocksize < -1 ->
  read_loop blocksize file fed
  = inl (if blocksize <? - ssize_max - 1 then OverflowError else ValueError).
Proof.
  intros Hbs. rewrite read_loop_step. unfold read.
  assert (Hmax : (bytes_max <? blocksize) = false)
    by (apply Z.ltb_ge; unfold bytes_max, ssize_max; lia).
  rewrite Hmax, orb_false_r.
  destruct (blocksize <? - ssize_max - 1); [reflexivity|].
  destruct (Z.ltb_spec blocksize (-1)) as [_|?]; [reflexivity|lia].
Qed.

(** A positive length for which no buffer can be had is refused at the
    first read, before the device is touched: with [OverflowError] beyond
    the longest [bytes], with [MemoryError] otherwise. *)
Lemma read_loop_no_buffer (blocksize : Z) (file : handle) (fed : list byte) :
  0 < blocksize -> bytes_max < blocksize \/ buffer_limit file < blocksize ->
  read_loop blocksize file fed
  = inl (if bytes_max <? blocksize then OverflowError else MemoryError).
Proof.
  intros Hpos Hbig. rewrite read_loop_step. unfold read.
  assert (Hmin : (blocksize <? - ssize_max - 1) = false)
    by (apply Z.ltb_ge; unfold ssize_max; lia).
  rewrite Hmin, orb_false_l.
  destruct (Z.ltb_spec bytes_max blocksize) as [_|Hle]; [reflexivity|].
  destruct (Z.ltb_spec blocksize (-1)) as [?|_]; [lia|].
  destruct (Z.eqb_spec blocksize 0) as [?|_]; [lia|].
  destruct (Z.ltb_spec 0 blocksize) as [_|?]; [|lia].
  destruct (Z.ltb_spec (buffer_limit file) blocksize) as [_|?];
    [reflexivity|lia].
Qed.

(** C5, as amended: for every path, algorithm and chunk size other than 0,
    [hashfile] lets no exception through and ends in one of three ways: it
    returns the digest of all the bytes of the file and logs nothing; or it
    returns None after one warning, when an [OSError] (missing file, denied
    permission, input/output error) was raised; or it returns None after one
    error record, when another exception was raised (unknown algorithm, chunk
    size below -1 or beyond what a read can be asked for, digest that needs a
    length).  It does return the digest of the whole file when the algorithm
    is known, the file opens and reads without fault and the chunk size is one
    a read can serve: positive and no larger than the largest buffer that can
    be allocated, or -1 with a file that fits in such a buffer; and a failure
    to open the file gives None and the warning. *)
Theorem hashfile_digest_or_absent (hl : hashlib)
    (open_rb : string -> exn + handle) (path : string) (blocksize : Z)
    (hash_algo : string) :
  blocksize <> 0 ->
  ((exists file d,
      open_rb path = inr file
      /\ hexdigest hl hash_algo (remaining file) = Some d
      /\ hashfile hl open_rb path blocksize hash_algo = (Some d, []))
   \/ (exists e,
         is_OSError e = true
         /\ hashfile hl open_rb path blocksize hash_algo
            = (None, [(WARNING, Skipping_OS_error path e)]))
   \/ (exists e,
         is_OSError e = false
         /\ hashfile hl open_rb path blocksize hash_algo
            = (None, [(ERROR, Unexpected_hashing_error path e)])))
  /\ (forall file d,
        hashlib_new hl hash_algo = true ->
        open_rb path = inr file ->
        until_fault file = None ->
        buffer_fits blocksize file ->
        hexdigest hl hash_algo (remaining file) = Some d ->
        hashfile hl open_rb path blocksize hash_algo = (Some d, []))
  /\ (forall e,
        hashlib_new hl hash_algo = true ->
        open_rb path = inl e ->
        is_OSError e = true ->
        hashfile hl open_rb path blocksize hash_algo
        = (None, [(WARNING, Skipping_OS_error path e)])).
Proof.
  intros Hbs. unfold hashfile, hashfile_try. split; [|split].
  - assert (Hcaught : forall e,
              (exists e',
                 is_OSError e' = true
                 /\ (if is_OSError e
                     then (None, [(WARNING, Skipping_OS_error path e)])
                     else (None, [(ERROR, Unexpected_hashing_error path e)]))
                    = (@None string, [(WARNING, Skipping_OS_error path e')]))
              \/ (exists e',
                    is_OSError e' = false
                    /\ (if is_OSError e
                        then (None, [(WARNING, Skipping_OS_error path e)])
                        else (None, [(ERROR, Unexpected_hashing_error path e)]))
                       = (@None string,
                          [(ERROR, Unexpected_hashing_error path e')]))).
    { intros e. destruct (is_OSError e) eqn:E; [left|right]; exists e;
        now rewrite E. }
    destruct (hashlib_new hl hash_algo); [|right; apply (Hcaught ValueError)].
    destruct (open_rb path) as [e|file]; [right; apply Hcaught|].
    destruct (read_loop blocksize file []) as [e|fed] eqn:Hloop;
      [right; apply Hcaught|].
    assert (Hall : fed = remaining file).
    { destruct (Z.lt_ge_cases blocksize (-1)) as [Hlow|Hhigh].
      - rewrite read_loop_refused in Hloop by exact Hlow. discriminate.
      - apply read_loop_feeds_everything in Hloop; [exact Hloop|lia]. }
    subst fed.
    destruct (hexdigest hl hash_algo (remaining file)) as [d|] eqn:Hd;
      [|right; apply (Hcaught TypeError)].
    left. exists file, d. split; [reflexivity|]. split; [exact Hd|reflexivity].
  - intros file d Hnew Hopen Hfault Hfit Hd. rewrite Hnew, Hopen.
    rewrite (read_loop_no_fault _ _ _ Hfit Hfault). simpl.
    now rewrite Hd.
  - intros e Hnew Hopen He. now rewrite Hnew, Hopen, He.
Qed.

Lemma hashfile_digest_or_absent_witness :
  default_blocksize <> 0
  /\ hashfile Example.toy_hashlib (open_rb Example.sys_a) "/data/a.txt"
       default_blocksize "sha256"
     = (Some "h:X", []).
Proof.
  assert (Hbs : default_blocksize <> 0) by discriminate.
  split; [exact Hbs|].
  apply (proj1 (proj2 (hashfile_digest_or_absent Example.toy_hashlib
                         (open_rb Example.sys_a) "/data/a.txt"
                         default_blocksize "sha256" Hbs))
           (mkHandle (list_byte_of_string "X") None spare_memory));
    try reflexivity.
  left. unfold default_blocksize, bytes_max, ssize_max, spare_memory. simpl.
  lia.
Defined.

(** C5, as stated, fails at chunk size 0: the first read returns no byte,
    the loop does not run, and the digest returned is that of the empty byte
    string, which is neither the digest of the file nor None. *)
Lemma hashfile_chunk_size_zero :
  ~ (forall path blocksize hash_algo,
       (exists file d,
          open_rb Example.sys_a path = inr file
          /\ hexdigest Example.toy_hashlib hash_algo (remaining file) = Some d
          /\ hashfile Example.toy_hashlib (open_rb Example.sys_a) path
               blocksize hash_algo = (Some d, []))
       \/ (exists e,
             is_OSError e = true
             /\ hashfile Example.toy_hashlib (open_rb Example.sys_a) path
                  blocksize hash_algo
                = (None, [(WARNING, Skipping_OS_error path e)]))).
Proof.
  intros H. destruct (H "/data/a.txt" 0 "sha256")
    as [[file [d [Hopen [Hd Hres]]]]|[e [_ Hres]]].
  - vm_compute in Hopen. injection Hopen as <-.
    vm_compute in Hd. injection Hd as <-.
    vm_compute in Hres. discriminate.
  - vm_compute in Hres. discriminate.
Qed.

(** ** The deletion phase *)

Lemma announce_only_logs (original : string) (dups : list string) (e : event) :
  In e (announce original dups) -> exists r, e = Log r.
Proof.
  unfold announce. intros [<-|[<-|Hin]]; [eauto|eauto|].
  apply in_map_iff in Hin. destruct Hin as [id [<- _]]. eauto.
Qed.

Lemma delete_loop_dry_run (os_remove : string -> option exn)
    (groups : list (list string)) (answers : list string) :
  (forall e, In e (fst (delete_loop os_remove true groups answers)) ->
             exists r, e = Log r)
  /\ (Forall (fun file_paths => file_paths <> []) groups ->
      delete_loop os_remove true groups answers
      = (dry_run_report groups, Returned tt)).
Proof.
  induction groups as [|[|original dups] groups [IHlog IHrep]].
  - split; [intros e []|reflexivity].
  - split; [intros e []|]. intros Hall. inversion Hall; subst. congruence.
  - cbn [delete_loop].
    destruct (delete_loop os_remove true groups answers) as [after out].
    split.
    + cbn [fst]. intros e Hin. apply in_app_or in Hin.
      destruct Hin as [Hin|[<-|Hin]].
      * exact (announce_only_logs _ _ _ Hin).
      * eauto.
      * apply IHlog. exact Hin.
    + intros Hall. inversion Hall as [|? ? _ Hrest]; subst.
      specialize (IHrep Hrest). injection IHrep as -> ->.
      cbn [dry_run_report flat_map]. now rewrite <- app_assoc.
Qed.

(** C9: in a dry run the deletion phase only hands records to the logger:
    it asks nothing on the terminal and calls [os.remove] on nothing,
    whatever the groups, the answers waiting on the terminal and the state of
    the files; and when there are groups (each with its members), what it
    logs is the header, the mode, and for every group its listing followed by
    the notice that these files would be deleted. *)
Theorem dry_run_deletes_nothing (os_remove : string -> option exn)
    (duplicate_groups : dict string (list string)) (answers : list string) :
  (forall e,
     In e (fst (delete_duplicates os_remove duplicate_groups true answers)) ->
     exists r, e = Log r)
  /\ (duplicate_groups <> [] ->
      Forall (fun file_paths => file_paths <> []) (values duplicate_groups) ->
      delete_duplicates os_remove duplicate_groups true answers
      = (Log (INFO, Duplicate_deletion_header) :: Log (INFO, Mode true)
           :: dry_run_report (values duplicate_groups),
         Returned tt)).
Proof.
  destruct (delete_loop_dry_run os_remove (values duplicate_groups) answers)
    as [Hlog Hrep].
  unfold delete_duplicates. destruct duplicate_groups as [|g gs].
  - split; [|congruence]. intros e [<-|[]]. eauto.
  - split.
    + destruct (delete_loop os_remove true (values (g :: gs)) answers)
        as [after out].
      cbn [fst] in *. intros e [<-|[<-|Hin]]; eauto.
    + intros _ Hall. now rewrite (Hrep Hall).
Qed.

Lemma dry_run_deletes_nothing_witness :
  Example.groups <> []
  /\ Forall (fun file_paths => file_paths <> []) (values Example.groups)
  /\ delete_duplicates (fun _ => None) Example.groups true ["y"; "y"]
     = (Log (INFO, Duplicate_deletion_header) :: Log (INFO, Mode true)
          :: dry_run_report (values Example.groups),
        Returned tt).
Proof.
  assert (Hne : Example.groups <> []) by discriminate.
  assert (Hall : Forall (fun file_paths : list string => file_paths <> [])
                   (values Example.groups))
    by (repeat constructor; discriminate).
  split; [exact Hne|]. split; [exact Hall|].
  exact (proj2 (dry_run_deletes_nothing (fun _ => None) Example.groups
                  ["y"; "y"]) Hne Hall).
Defined.

Lemma remove_all_In (os_remove : string -> option exn) (dups : list string)
    (p : string) (failure : option exn) :
  In (Remove p failure) (remove_all os_remove dups) -> In p dups.
Proof.
  unfold remove_all. intros Hin. apply in_flat_map in Hin.
  destruct Hin as [dup [Hdup Hin]].
  destruct (os_remove dup); destruct Hin as [E|[E|[]]];
    try discriminate; now injection E as <-.
Qed.

Lemma delete_loop_removes_tails (os_remove : string -> option exn)
    (dry_run : bool) (groups : list (list string)) (p : string)
    (failure : option exn) :
  forall answers,
    In (Remove p failure) (fst (delete_loop os_remove dry_run groups answers)) ->
    exists original rest, In (original :: rest) groups /\ In p rest.
Proof.
  induction groups as [|[|original dups] groups IH]; intros answers;
    [simpl; intros []|simpl; intros []|].
  assert (Hnext : forall answers',
            In (Remove p failure)
              (fst (delete_loop os_remove dry_run groups answers')) ->
            exists original' rest,
              In (original' :: rest) ((original :: dups) :: groups)
              /\ In p rest).
  { intros answers' Hin. destruct (IH answers' Hin) as [o [r [Ho Hr]]].
    exists o, r. split; [now right|exact Hr]. }
  assert (Hshown : ~ In (Remove p failure) (announce original dups)).
  { intros Hin. apply announce_only_logs in Hin. destruct Hin; discriminate. }
  cbn [delete_loop]. destruct dry_run.
  - specialize (Hnext answers).
    destruct (delete_loop os_remove true groups answers) as [after out].
    cbn [fst] in *. intros Hin. apply in_app_or in Hin.
    destruct Hin as [Hin|[E|Hin]]; [contradiction|discriminate|auto].
  - destruct answers as [|answer answers'].
    + cbn [fst]. intros Hin. contradiction.
    + specialize (Hnext answers').
      destruct (delete_loop os_remove false groups answers') as [after out].
      destruct (lower answer =? "y")%string; [|destruct (lower answer =? "a")%string];
        cbn [fst] in *; intros Hin; apply in_app_or in Hin;
        destruct Hin as [Hin|Hin]; try contradiction.
      * destruct Hin as [E|Hin]; [discriminate|].
        apply in_app_or in Hin. destruct Hin as [Hin|Hin]; [|auto].
        exists original, dups. split; [now left|].
        exact (remove_all_In _ _ _ _ Hin).
      * destruct Hin as [E|[E|[]]]; discriminate.
      * destruct Hin as [E|Hin]; [discriminate|auto].
Qed.

Lemma NoDup_app_disjoint {A : Type} (l1 l2 : list A) (a : A) :
  NoDup (l1 ++ l2) -> In a l1 -> In a l2 -> False.
Proof.
  induction l1 as [|x l1 IH]; simpl; intros Hnd H1 H2; [destruct H1|].
  apply NoDup_cons_iff in Hnd. destruct Hnd as [Hx Hnd].
  destruct H1 as [->|H1].
  - apply Hx. apply in_or_app. now right.
  - exact (IH Hnd H1 H2).
Qed.

Lemma NoDup_concat_same_group {A : Type} (ls : list (list A))
    (l1 l2 : list A) (x : A) :
  NoDup (concat ls) -> In l1 ls -> In l2 ls -> In x l1 -> In x l2 -> l1 = l2.
Proof.
  induction ls as [|l ls IH]; simpl; intros Hnd H1 H2 Hx1 Hx2; [destruct H1|].
  assert (Hcross : forall l', In l' ls -> In x l -> In x l' -> False).
  { intros l' Hl' Hxl Hxl'. apply (NoDup_app_disjoint _ _ x Hnd Hxl).
    apply in_concat. exists l'. split; assumption. }
  destruct H1 as [->|H1], H2 as [->|H2].
  - reflexivity.
  - exfalso. exact (Hcross l2 H2 Hx1 Hx2).
  - exfalso. exact (Hcross l1 H1 Hx2 Hx1).
  - apply IH; try assumption. exact (NoDup_app_remove_l _ _ Hnd).
Qed.

Lemma NoDup_concat_group {A : Type} (ls : list (list A)) (l : list A) :
  NoDup (concat ls) -> In l ls -> NoDup l.
Proof.
  induction ls as [|l' ls IH]; simpl; intros Hnd Hl; [destruct Hl|].
  destruct Hl as [->|Hin].
  - exact (NoDup_app_remove_r _ _ Hnd).
  - apply IH; [exact (NoDup_app_remove_l _ _ Hnd)|exact Hin].
Qed.

(** C10: in either mode and whatever the user answers, a path handed to
    [os.remove] is a second or later member of some group; hence, the groups
    listing every path once (as the groups of a scan do), it is not the
    first path of any group, and every original survives. *)
Theorem originals_are_never_removed (os_remove : string -> option exn)
    (duplicate_groups : dict string (list string)) (dry_run : bool)
    (answers : list string) (p : string) (failure : option exn) :
  In (Remove p failure)
    (fst (delete_duplicates os_remove duplicate_groups dry_run answers)) ->
  (exists h original rest,
     In (h, original :: rest) duplicate_groups /\ In p rest)
  /\ (NoDup (concat (values duplicate_groups)) ->
      forall h original rest,
        In (h, original :: rest) duplicate_groups -> p <> original).
Proof.
  intros Hin.
  assert (Htail : exists original rest,
            In (original :: rest) (values duplicate_groups) /\ In p rest).
  { unfold delete_duplicates in Hin. destruct duplicate_groups as [|g gs].
    - destruct Hin as [E|[]]. discriminate.
    - pose proof (delete_loop_removes_tails os_remove dry_run
                    (values (g :: gs)) p failure answers) as Hloop.
      destruct (delete_loop os_remove dry_run (values (g :: gs)) answers)
        as [after out].
      cbn [fst] in *. destruct Hin as [E|[E|Hin]]; try discriminate.
      exact (Hloop Hin). }
  destruct Htail as [o [r [Hgroup Hp]]]. split.
  - apply in_map_iff in Hgroup. destruct Hgroup as [[h ps] [E Hgroup]].
    simpl in E. subst ps. exists h, o, r. split; assumption.
  - intros Hnd h original rest Hgroup' ->.
    assert (Hin' : In (original :: rest) (values duplicate_groups))
      by (apply in_map_iff; exists (h, original :: rest); split;
          [reflexivity|exact Hgroup']).
    assert (E : o :: r = original :: rest).
    { apply (NoDup_concat_same_group (values duplicate_groups) _ _ original
               Hnd Hgroup Hin'); [now right|now left]. }
    injection E as -> ->.
    pose proof (NoDup_concat_group _ _ Hnd Hin') as Hg.
    apply NoDup_cons_iff in Hg. destruct Hg as [Hhead _]. contradiction.
Qed.

Lemma originals_are_never_removed_witness :
  In (Remove "/data/b.txt" None)
    (fst (delete_duplicates (fun _ => None) Example.groups false ["Y"; "n"]))
  /\ NoDup (concat (values Example.groups))
  /\ "/data/b.txt" <> "/data/a.txt".
Proof.
  assert (Hin : In (Remove "/data/b.txt" None)
                  (fst (delete_duplicates (fun _ => None) Example.groups false
                          ["Y"; "n"])))
    by (vm_compute; auto 20).
  assert (Hnd : NoDup (concat (values Example.groups))).
  { vm_compute. repeat constructor; simpl; intuition discriminate. }
  split; [exact Hin|]. split; [exact Hnd|].
  apply (proj2 (originals_are_never_removed _ _ _ _ _ _ Hin) Hnd "h:X"
           "/data/a.txt" ["/data/b.txt"; "/data/sub/d.txt"]).
  left. reflexivity.
Defined.

(** ** Scans of a snapshot *)

Lemma snapshot_walk (top : string) (fs : node) (cpus : positive)
    (order : list nat) :
  walk (snapshot top fs cpus order) top = inr (os_walk top fs).
Proof. simpl. now rewrite String.eqb_refl. Qed.

(** What the handler of [find_duplicates] does when the walk raises
    [PermissionError]. *)
Lemma find_duplicates_walk_denied (hl : hashlib) (sys : system)
    (top algo : string) :
  walk sys top = inl PermissionError ->
  find_duplicates hl sys top algo
  = ([(CRITICAL, Permission_denied_exiting top)], SystemExit 1).
Proof. intros Hwalk. unfold find_duplicates. now rewrite Hwalk. Qed.

(** But [os.walk] does not raise: no scan of a snapshot exits. *)
Lemma find_duplicates_snapshot_no_exit (hl : hashlib) (top : string)
    (fs : node) (cpus : positive) (order : list nat) (algo : string)
    (code : Z) :
  snd (find_duplicates hl (snapshot top fs cpus order) top algo)
  <> SystemExit code.
Proof.
  rewrite (find_duplicates_unfold hl _ top algo _
             (snapshot_walk top fs cpus order)).
  cbv zeta. destruct (len _ =? 0); [discriminate|].
  destruct (starmap _ _ _ _); discriminate.
Qed.

(** C3, on the code: when the root directory cannot be listed, [os.walk]
    swallows the error and yields nothing, so the scan logs the start of the
    first pass and returns the empty mapping; the handler that would log the
    fatal error and exit with status 1 is not reached. *)
Theorem denied_root_returns_empty (hl : hashlib) (top : string)
    (children : list (string * node)) (cpus : positive) (order : list nat)
    (algo : string) :
  find_duplicates hl (snapshot top (Dir false children) cpus order) top algo
  = ([(INFO, Pass1_grouping)], Returned []).
Proof.
  rewrite (find_duplicates_unfold hl _ top algo _
             (snapshot_walk top (Dir false children) cpus order)).
  unfold candidates, size_map_of, file_list_of. rewrite snapshot_walk.
  reflexivity.
Qed.



(** ** Sizes and groups *)







(** ** What the walk collects *)

Lemma node_induction (P : node -> Prop) :
  (forall f, P (File f)) ->
  (forall a t, (forall n, t = Some n -> P n) -> P (Symlink a t)) ->
  (forall l children,
     (forall name c, In (name, c) children -> P c) -> P (Dir l children)) ->
  forall n, P n.
Proof.
  intros HF HS HD. fix IH 1. intros [f|a [t|]|l children].
  - apply HF.
  - apply HS. intros n [= <-]. apply IH.
  - apply HS. discriminate.
  - apply HD. induction children as [|[name c] cs IHcs]; intros name' c' Hin.
    + destruct Hin.
    + destruct Hin as [E|Hin].
      * injection E as _ <-. apply IH.
      * exact (IHcs name' c' Hin).
Qed.

Lemma os_walk_Dir (top : string) (children : list (string * node)) :
  os_walk top (Dir true children)
  = (top,
     map fst (filter (fun e => is_dir (snd e)) children),
     map fst (filter (fun e => negb (is_dir (snd e))) children))
    :: flat_map
         (fun e : string * node =>
            match snd e with
            | Dir _ _ => os_walk (join top (fst e)) (snd e)
            | _ => []
            end)
         children.
Proof.
  cbn [os_walk]. f_equal.
  induction children as [|[name c] cs IH]; [reflexivity|].
  cbn [flat_map fst snd]. now rewrite <- IH.
Qed.

Lemma tree_entries_Dir (d : string) (l : bool)
    (children : list (string * node)) :
  tree_entries d (Dir l children)
  = flat_map
      (fun e : string * node =>
         (join d (fst e), snd e) :: tree_entries (join d (fst e)) (snd e))
      children.
Proof.
  cbn [tree_entries].
  induction children as [|[name c] cs IH]; [reflexivity|].
  cbn [flat_map fst snd]. now rewrite <- IH.
Qed.

Lemma os_walk_visited (fs : node) :
  forall top d dirs files name,
    In (d, dirs, files) (os_walk top fs) -> In name files ->
    exists n, visited top fs (join d name) n /\ is_dir n = false.
Proof.
  induction fs as [f|a t _|l children IH] using node_induction;
    intros top d dirs files name Htriple Hname; try destruct Htriple.
  destruct l; [|destruct Htriple].
  rewrite os_walk_Dir in Htriple. destruct Htriple as [E|Htriple].
  - injection E as <- _ <-. apply in_map_iff in Hname.
    destruct Hname as [[name' n] [<- Hin]]. apply filter_In in Hin.
    destruct Hin as [Hin Hdir]. simpl in Hdir. exists n. split.
    + now apply visited_here.
    + now apply negb_true_iff.
  - apply in_flat_map in Htriple. destruct Htriple as [[name' c] [Hin Hc]].
    cbn [fst snd] in Hc. destruct c as [f|a t|l' cs]; try destruct Hc.
    destruct (IH name' (Dir l' cs) Hin _ _ _ _ name Hc Hname) as [n [Hv Hd]].
    exists n. split; [|exact Hd].
    exact (visited_below top children name' l' cs _ n Hin Hv).
Qed.

Lemma visited_os_walk (top : string) (fs : node) (p : string) (n : node) :
  visited top fs p n -> is_dir n = false ->
  exists d dirs files name,
    In (d, dirs, files) (os_walk top fs) /\ In name files /\ p = join d name.
Proof.
  induction 1 as [top children name n Hin
                 |top children name l cs p n Hin Hv IH]; intros Hdir.
  - rewrite os_walk_Dir. eexists top, _, _, name.
    split; [left; reflexivity|]. split; [|reflexivity].
    apply in_map_iff. exists (name, n). split; [reflexivity|].
    apply filter_In. split; [exact Hin|]. simpl. now rewrite Hdir.
  - destruct (IH Hdir) as [d [dirs [files [name' [Ht [Hn Hp]]]]]].
    exists d, dirs, files, name'. split; [|split; assumption].
    rewrite os_walk_Dir. right. apply in_flat_map.
    exists (name, Dir l cs). split; [exact Hin|exact Ht].
Qed.

Lemma visited_tree_entries (top : string) (fs : node) (p : string) (n : node) :
  visited top fs p n -> In (p, n) (tree_entries top fs).
Proof.
  induction 1 as [top children name n Hin
                 |top children name l cs p n Hin Hv IH];
    rewrite tree_entries_Dir; apply in_flat_map.
  - exists (name, n). split; [exact Hin|now left].
  - exists (name, Dir l cs). split; [exact Hin|now right].
Qed.

(** Entering a directory the walk has come across, when it can be
    listed. *)
Lemma visited_descend (top : string) (fs : node) (p : string)
    (cs : list (string * node)) (name : string) (c : node) :
  visited top fs p (Dir true cs) -> In (name, c) cs ->
  visited top fs (join p name) c.
Proof.
  intros Hv. remember (Dir true cs) as n eqn:Hn. revert cs Hn.
  induction Hv as [top children name' n Hin
                  |top children name' l cs' p n Hin Hv IH];
    intros cs -> Hc.
  - apply (visited_below top children name' true cs _ c Hin).
    now apply visited_here.
  - apply (visited_below top children name' l cs' _ c Hin).
    now apply (IH cs).
Qed.

Lemma In_lstat (top : string) (fs : node) (p : string) (n : node) :
  NoDup (map fst (tree_entries top fs)) ->
  In (p, n) (tree_entries top fs) -> lstat top fs p = Some n.
Proof.
  unfold lstat. induction (tree_entries top fs) as [|[p' n'] es IH];
    intros Hnd Hin; [destruct Hin|].
  simpl in Hnd. apply NoDup_cons_iff in Hnd. destruct Hnd as [Hp' Hnd].
  cbn [find fst]. destruct Hin as [E|Hin].
  - injection E as -> ->. now rewrite String.eqb_refl.
  - destruct (String.eqb_spec p' p) as [->|_]; [|now apply IH].
    exfalso. apply Hp'. apply (in_map fst) in Hin. exact Hin.
Qed.

Lemma In_sized_paths (sys : system) (top p : string) :
  In p (sized_paths sys top)
  <-> In p (file_list_of sys top) /\ exists size, size_key sys p = Some size.
Proof.
  unfold sized_paths. rewrite in_concat. split.
  - intros [paths [Hin Hp]]. apply in_map_iff in Hin.
    destruct Hin as [[size paths'] [<- Hin]]. apply size_map_of_In in Hin.
    destruct Hin as [-> _]. apply filter_In in Hp. destruct Hp as [Hp Hs].
    split; [exact Hp|]. exists size. now apply has_size_key.
  - intros [Hp [size Hs]].
    exists (filter (has_size sys size) (file_list_of sys top)).
    assert (Hin : In p (filter (has_size sys size) (file_list_of sys top)))
      by (apply filter_In; split; [exact Hp|now apply has_size_key]).
    split; [|exact Hin]. apply in_map_iff.
    exists (size, filter (has_size sys size) (file_list_of sys top)).
    split; [reflexivity|]. apply size_map_of_In. split; [reflexivity|].
    intros E. rewrite E in Hin. destruct Hin.
Qed.

Lemma candidates_sized (sys : system) (top p : string) :
  In p (candidates sys top) -> In p (sized_paths sys top).
Proof.
  intros Hin. apply candidates_In in Hin.
  destruct Hin as [size [paths [Hgroup [_ Hp]]]].
  apply in_concat. exists paths. split; [|exact Hp].
  apply in_map_iff. now exists (size, paths).
Qed.

Lemma members_collected (hl : hashlib) (sys : system) (top algo : string)
    (logged : list log_record) (groups : dict string (list string))
    (h : string) (members : list string) (p : string) :
  find_duplicates hl sys top algo = (logged, Returned groups) ->
  In (h, members) groups -> In p members ->
  In p (candidates sys top) /\ In p (file_list_of sys top).
Proof.
  intros Hret Hgroup Hp. apply find_duplicates_Returned in Hret. subst groups.
  apply scan_result_In in Hgroup. destruct Hgroup as [-> _].
  apply filter_In in Hp. destruct Hp as [Hp _]. split; [exact Hp|].
  now apply candidates_sized, In_sized_paths in Hp.
Qed.

(** The collected files of a snapshot: the files the walk comes across,
    and the links it comes across that cannot be reached. *)
Lemma file_list_of_snapshot (top : string) (fs : node) (cpus : positive)
    (order : list nat) (p : string) :
  NoDup (map fst (tree_entries top fs)) ->
  In p (file_list_of (snapshot top fs cpus order) top)
  <-> (exists f, visited top fs p (File f))
      \/ (exists e t, visited top fs p (Symlink (Some e) t)).
Proof.
  intros Hnd. unfold file_list_of. rewrite snapshot_walk.
  rewrite collect_files_flat_map, in_flat_map. split.
  - intros [[[d dirs] files] [Ht Hp]]. cbn [fst snd] in Hp.
    apply filter_In in Hp. destruct Hp as [Hp Hlink].
    apply in_map_iff in Hp. destruct Hp as [name [<- Hname]].
    destruct (os_walk_visited fs top d dirs files name Ht Hname)
      as [n [Hv Hdir]].
    pose proof (In_lstat _ _ _ _ Hnd (visited_tree_entries _ _ _ _ Hv))
      as Hstat.
    cbn [islink snapshot] in Hlink. unfold snapshot_islink in Hlink.
    rewrite Hstat in Hlink.
    destruct n as [f|[e|] t|l cs];
      [left; now exists f|right; now exists e, t|discriminate|discriminate].
  - assert (Hin : forall n,
              visited top fs p n -> is_dir n = false ->
              snapshot_islink top fs p = false ->
              exists x : walk_triple,
                In x (os_walk top fs)
                /\ In p (filter
                           (fun file_path =>
                              negb (islink (snapshot top fs cpus order)
                                      file_path))
                           (map (join (fst (fst x))) (snd x)))).
    { intros n Hv Hdir Hlink.
      destruct (visited_os_walk _ _ _ _ Hv Hdir)
        as [d [dirs [files [name [Ht [Hname ->]]]]]].
      exists (d, dirs, files). split; [exact Ht|]. cbn [fst snd].
      apply filter_In. split; [now apply in_map|].
      cbn [islink snapshot]. now rewrite Hlink. }
    intros [[f Hv]|[e [t Hv]]]; apply (Hin _ Hv eq_refl);
      unfold snapshot_islink;
      now rewrite (In_lstat _ _ _ _ Hnd (visited_tree_entries _ _ _ _ Hv)).
Qed.

(** C4, as amended: in a tree whose entries have distinct paths, the size
    pass files exactly the entries the walk comes across that are files and
    whose size can be queried, special files (pipes, devices, sockets) as well
    as regular files.  A symbolic link, whatever it points to, is in no size
    group, is not handed to the hashing stage and is in no group of a returned
    mapping; it is not collected either when it can be reached, while a link
    that cannot be reached (its directory can be listed but not searched) is
    collected like a file and its size is queried, in vain.  A directory is
    not collected, and the walk comes across its entries in turn when it can
    be listed. *)
Theorem size_pass_takes_files_not_links (top : string) (fs : node)
    (cpus : positive) (order : list nat) (p : string) :
  NoDup (map fst (tree_entries top fs)) ->
  let sys := snapshot top fs cpus order in
  (In p (sized_paths sys top)
   <-> exists f, visited top fs p (File f) /\ stat_error f = None)
  /\ (forall a t,
        visited top fs p (Symlink a t) ->
        (a = None -> ~ In p (file_list_of sys top))
        /\ (forall e, a = Some e ->
                      In p (file_list_of sys top) /\ getsize sys p = inl e)
        /\ ~ In p (sized_paths sys top)
        /\ ~ In p (candidates sys top)
        /\ forall hl algo logged groups h members,
             find_duplicates hl sys top algo = (logged, Returned groups) ->
             In (h, members) groups -> ~ In p members)
  /\ (forall l cs,
        visited top fs p (Dir l cs) ->
        ~ In p (file_list_of sys top)
        /\ (l = true ->
            forall name c, In (name, c) cs -> visited top fs (join p name) c)).
Proof.
  intros Hnd sys.
  assert (Hstat : forall n, visited top fs p n -> lstat top fs p = Some n).
  { intros n Hv. exact (In_lstat _ _ _ _ Hnd (visited_tree_entries _ _ _ _ Hv)). }
  assert (Hsame : forall n n', visited top fs p n -> visited top fs p n' ->
                               n = n').
  { intros n n' Hv Hv'. apply Hstat in Hv. apply Hstat in Hv'. congruence. }
  assert (Hsized : In p (sized_paths sys top)
                   <-> exists f, visited top fs p (File f)
                                 /\ stat_error f = None).
  { rewrite In_sized_paths. unfold sys.
    rewrite (file_list_of_snapshot _ _ _ _ _ Hnd).
    unfold size_key. cbn [getsize snapshot]. unfold snapshot_getsize. split.
    - intros [[[f Hv]|[e [t Hv]]] [size Hs]]; rewrite (Hstat _ Hv) in Hs;
        cbn [follow] in Hs; [|discriminate].
      exists f. split; [exact Hv|]. now destruct (stat_error f).
    - intros [f [Hv Hs]]. split; [left; now exists f|]. exists (st_size f).
      rewrite (Hstat _ Hv). cbn [follow]. now rewrite Hs. }
  split; [exact Hsized|]. split.
  - intros a t Hv.
    assert (Hno : ~ In p (sized_paths sys top)).
    { intros Hin. apply Hsized in Hin. destruct Hin as [f [Hf _]].
      pose proof (Hsame _ _ Hv Hf). discriminate. }
    split; [|split; [|split; [exact Hno|split]]].
    + intros -> Hin. apply (file_list_of_snapshot _ _ _ _ _ Hnd) in Hin.
      destruct Hin as [[f Hf]|[e [t' Hl]]].
      * pose proof (Hsame _ _ Hv Hf). discriminate.
      * pose proof (Hsame _ _ Hv Hl). discriminate.
    + intros e ->. split.
      * apply (file_list_of_snapshot _ _ _ _ _ Hnd). right. now exists e, t.
      * unfold sys. cbn [getsize snapshot]. unfold snapshot_getsize.
        now rewrite (Hstat _ Hv).
    + intros Hin. now apply Hno, candidates_sized.
    + intros hl algo logged groups h members Hret Hgroup Hp.
      apply Hno, candidates_sized.
      exact (proj1 (members_collected _ _ _ _ _ _ _ _ _ Hret Hgroup Hp)).
  - intros l cs Hv. split.
    + intros Hin. apply (file_list_of_snapshot _ _ _ _ _ Hnd) in Hin.
      destruct Hin as [[f Hf]|[e [t' Hl]]].
      * pose proof (Hsame _ _ Hv Hf). discriminate.
      * pose proof (Hsame _ _ Hv Hl). discriminate.
    + intros -> name c Hc. exact (visited_descend _ _ _ _ _ _ Hv Hc).
Qed.

Lemma visited_example_pipe :
  visited Example.top Example.tree "/data/sub/pipe"
    (File (mkFile Fifo [] None None None)).
Proof.
  apply (visited_below Example.top _ "sub" true
           [("d.txt", Example.regular "X"); ("pipe", Example.fifo);
            ("u.txt", Example.unreadable "X"); ("f1", Example.regular "ZZ");
            ("long.txt", Example.regular "only one of this size")]).
  - simpl. auto 10.
  - apply (visited_here "/data/sub" _ "pipe"). simpl. auto.
Defined.

Lemma visited_unsearchable_link :
  visited "/s" Unsearchable.tree "/s/d/link"
    (Symlink (Some PermissionError) (Some (Example.regular "X"))).
Proof.
  apply (visited_below "/s" _ "d" true
           [("a.txt", Unsearchable.denied "X");
            ("link", Symlink (Some PermissionError)
                       (Some (Example.regular "X")));
            ("sub", Dir false [("c.txt", Example.regular "X")])]).
  - simpl. auto.
  - apply (visited_here "/s/d" _ "link"). simpl. auto.
Defined.

(** The scan of the directory that cannot be searched: its file and its
    link are collected, neither can be sized, and each gets a warning. *)
Lemma unsearchable_directory_scan :
  file_list_of Unsearchable.sys "/s" = ["/s/open.txt"; "/s/d/a.txt"; "/s/d/link"]
  /\ find_duplicates Example.toy_hashlib Unsearchable.sys "/s" "sha256"
     = ([(INFO, Pass1_grouping);
         (WARNING, Skipping_error "/s/d/a.txt" PermissionError);
         (WARNING, Skipping_error "/s/d/link" PermissionError)],
        Returned []).
Proof. split; reflexivity. Qed.

Lemma size_pass_takes_files_not_links_witness :
  (NoDup (map fst (tree_entries Example.top Example.tree))
   /\ In "/data/sub/pipe" (sized_paths Example.sys_a Example.top))
  /\ NoDup (map fst (tree_entries "/s" Unsearchable.tree))
  /\ In "/s/d/link" (file_list_of Unsearchable.sys "/s")
  /\ getsize Unsearchable.sys "/s/d/link" = inl PermissionError
  /\ ~ In "/s/d/link" (sized_paths Unsearchable.sys "/s").
Proof.
  assert (Hnd : NoDup (map fst (tree_entries Example.top Example.tree))).
  { vm_compute. repeat constructor; simpl; intuition discriminate. }
  assert (Hnd' : NoDup (map fst (tree_entries "/s" Unsearchable.tree))).
  { vm_compute. repeat constructor; simpl; intuition discriminate. }
  split; [split; [exact Hnd|]|split; [exact Hnd'|]].
  - apply (proj1 (size_pass_takes_files_not_links Example.top Example.tree 2
                    [0; 1; 2; 3; 4; 5; 6]%nat "/data/sub/pipe" Hnd)).
    exists (mkFile Fifo [] None None None).
    split; [exact visited_example_pipe|reflexivity].
  - destruct (proj1 (proj2 (size_pass_takes_files_not_links "/s"
                              Unsearchable.tree 1 [0]%nat "/s/d/link" Hnd'))
                _ _ visited_unsearchable_link)
      as [_ [Hcollected [Hsized _]]].
    destruct (Hcollected PermissionError eq_refl) as [Hin Hsize].
    split; [exact Hin|]. split; [exact Hsize|exact Hsized].
Defined.

(** C4, as stated, fails on a pipe: the walk lists it among the files, it
    is not a link, its size is queried and it gets its place in a size
    group. *)
Lemma size_pass_takes_a_pipe :
  ~ (forall p f,
       visited Example.top Example.tree p (File f) ->
       In p (sized_paths Example.sys_a Example.top) ->
       kind f = Regular).
Proof.
  intros H.
  assert (Hin : In "/data/sub/pipe" (sized_paths Example.sys_a Example.top))
    by (vm_compute; auto 10).
  specialize (H "/data/sub/pipe" (mkFile Fifo [] None None None)
                visited_example_pipe Hin).
  discriminate.
Qed.

(** ** The groups of a scan list every path once *)

Lemma NoDup_concat_kept_groups {A K : Type} (eqb : K -> K -> bool)
    (key : A -> option K) (keep : K * list A -> bool) (xs : list A)
    (d : dict K (list A)) :
  (forall a b, eqb a b = true <-> a = b) ->
  NoDup xs ->
  NoDup (keys d) ->
  (forall k g, In (k, g) d ->
     g = filter (fun x => match key x with
                          | Some k' => eqb k k'
                          | None => false
                          end) xs) ->
  NoDup (concat (values (filter keep d))).
Proof.
  intros eqb_eq Hxs. induction d as [|[k g] d IH]; intros Hkeys Hown.
  - constructor.
  - apply NoDup_cons_iff in Hkeys. destruct Hkeys as [Hk Hkeys].
    assert (Hrest : NoDup (concat (values (filter keep d)))).
    { apply IH; [exact Hkeys|]. intros k' g' Hin. apply Hown. now right. }
    cbn [filter]. destruct (keep (k, g)); [|exact Hrest].
    cbn [values map concat snd]. apply NoDup_app; [| exact Hrest |].
    + rewrite (Hown k g (or_introl eq_refl)). now apply NoDup_filter.
    + intros x Hx Hx'. apply in_concat in Hx'.
      destruct Hx' as [g' [Hg' Hxg']]. apply in_map_iff in Hg'.
      destruct Hg' as [[k' g''] [E Hin]]. simpl in E. subst g''.
      apply filter_In in Hin. destruct Hin as [Hin _].
      rewrite (Hown k g (or_introl eq_refl)) in Hx.
      rewrite (Hown k' g' (or_intror Hin)) in Hxg'.
      apply filter_In in Hx. apply filter_In in Hxg'.
      destruct Hx as [_ Hx], Hxg' as [_ Hxg'].
      destruct (key x) as [kx|]; [|discriminate].
      apply eqb_eq in Hx. apply eqb_eq in Hxg'. subst kx k'.
      apply Hk. apply (in_map fst) in Hin. exact Hin.
Qed.

Lemma candidates_NoDup (sys : system) (top : string) :
  NoDup (file_list_of sys top) -> NoDup (candidates sys top).
Proof.
  intros Hnd. unfold candidates, potential_duplicates_of.
  apply (NoDup_concat_kept_groups Z.eqb (size_key sys) _
           (file_list_of sys top)).
  - apply Z.eqb_eq.
  - exact Hnd.
  - unfold size_map_of. rewrite size_pass_grouped.
    apply NoDup_grouped. apply Z.eqb_eq.
  - intros k g Hin. now apply size_map_of_In in Hin.
Qed.

(** When the walk collects no path twice, no path is listed twice in the
    mapping a scan returns. *)
Lemma scan_result_NoDup (hl : hashlib) (sys : system) (top algo : string) :
  NoDup (file_list_of sys top) ->
  NoDup (concat (values (scan_result hl sys top algo))).
Proof.
  intros Hnd. unfold scan_result.
  apply (NoDup_concat_kept_groups String.eqb (digest_key hl sys algo) _
           (candidates sys top)).
  - apply String.eqb_eq.
  - now apply candidates_NoDup.
  - apply NoDup_grouped. apply String.eqb_eq.
  - intros k g Hin. apply (In_grouped String.eqb String.eqb_eq) in Hin.
    destruct Hin as [-> _]. apply selected_id.
Qed.

(** * Further properties of the script *)

(** ** [hashfile]: the chunk size *)

(** X1: on a file that reads without fault, all the chunk sizes a read
    can serve give the same result: the positive ones for which a buffer can
    be allocated, and -1 when the file fits in such a buffer.  The digest does
    not depend on how the file is cut into chunks. *)
Theorem hashfile_chunk_size_irrelevant (hl : hashlib)
    (open_rb : string -> exn + handle) (path : string) (blocksize1 blocksize2 : Z)
    (hash_algo : string) :
  (forall file,
     open_rb path = inr file ->
     until_fault file = None
     /\ buffer_fits blocksize1 file /\ buffer_fits blocksize2 file) ->
  hashfile hl open_rb path blocksize1 hash_algo
  = hashfile hl open_rb path blocksize2 hash_algo.
Proof.
  intros Hsound. unfold hashfile, hashfile_try.
  destruct (hashlib_new hl hash_algo); [|reflexivity].
  destruct (open_rb path) as [e|file] eqn:Hopen; [reflexivity|].
  destruct (Hsound file eq_refl) as [Hnone [Hfit1 Hfit2]].
  now rewrite (read_loop_no_fault _ _ _ Hfit1 Hnone),
    (read_loop_no_fault _ _ _ Hfit2 Hnone).
Qed.

Lemma hashfile_chunk_size_irrelevant_witness :
  hashfile Example.toy_hashlib (open_rb Example.sys_a) "/data/sub/long.txt" 4
    "md5"
  = hashfile Example.toy_hashlib (open_rb Example.sys_a) "/data/sub/long.txt"
      default_blocksize "md5".
Proof.
  apply hashfile_chunk_size_irrelevant.
  intros file Hopen. vm_compute in Hopen. injection Hopen as <-.
  split; [reflexivity|].
  split; left; unfold default_blocksize, bytes_max, ssize_max; simpl; lia.
Defined.

(** X2: the degenerate chunk sizes.  With chunk size 0 the file, once
    opened, is never read: whatever it holds, the result is the digest of the
    empty byte string.  With a chunk size below -1 the first read is refused
    with [ValueError], and the result is None, after an error record.  A
    chunk size that is not an index, or is beyond the longest [bytes], is
    refused with [OverflowError], and a positive one for which no buffer can be
    allocated with [MemoryError]: None again, after an error record. *)
Theorem hashfile_degenerate_chunk_sizes (hl : hashlib)
    (open_rb : string -> exn + handle) (path : string) (hash_algo : string)
    (file : handle) :
  hashlib_new hl hash_algo = true ->
  open_rb path = inr file ->
  hashfile hl open_rb path 0 hash_algo
  = match hexdigest hl hash_algo [] with
    | Some d => (Some d, [])
    | None => (None, [(ERROR, Unexpected_hashing_error path TypeError)])
    end
  /\ (forall blocksize,
        - ssize_max - 1 <= blocksize < -1 ->
        hashfile hl open_rb path blocksize hash_algo
        = (None, [(ERROR, Unexpected_hashing_error path ValueError)]))
  /\ (forall blocksize,
        blocksize < - ssize_max - 1 \/ bytes_max < blocksize ->
        hashfile hl open_rb path blocksize hash_algo
        = (None, [(ERROR, Unexpected_hashing_error path OverflowError)]))
  /\ (forall blocksize,
        0 < blocksize <= bytes_max -> buffer_limit file < blocksize ->
        hashfile hl open_rb path blocksize hash_algo
        = (None, [(ERROR, Unexpected_hashing_error path MemoryError)])).
Proof.
  intros Hnew Hopen. unfold hashfile, hashfile_try. rewrite Hnew, Hopen.
  split; [|split; [|split]].
  - rewrite read_loop_zero. now destruct (hexdigest hl hash_algo []).
  - intros blocksize [Hmin Hlow]. rewrite read_loop_refused by exact Hlow.
    destruct (Z.ltb_spec blocksize (- ssize_max - 1)) as [?|_];
      [lia|reflexivity].
  - intros blocksize [Hlow|Hhigh].
    + rewrite read_loop_refused by (unfold ssize_max in Hlow; lia).
      destruct (Z.ltb_spec blocksize (- ssize_max - 1)) as [_|?];
        [reflexivity|lia].
    + rewrite read_loop_no_buffer
        by (try (left; exact Hhigh); unfold bytes_max, ssize_max in Hhigh; lia).
      destruct (Z.ltb_spec bytes_max blocksize) as [_|?]; [reflexivity|lia].
  - intros blocksize [Hpos Hmax] Hlimit.
    rewrite read_loop_no_buffer by (try (right; exact Hlimit); exact Hpos).
    destruct (Z.ltb_spec bytes_max blocksize) as [?|_]; [lia|reflexivity].
Qed.

Lemma hashfile_degenerate_chunk_sizes_witness :
  hashfile Example.toy_hashlib (open_rb Example.sys_a) "/data/sub/long.txt" 0
    "sha256"
  = hashfile Example.toy_hashlib (open_rb Example.sys_a) "/data/a.txt" 0
      "sha256"
  /\ hashfile Example.toy_hashlib (open_rb Example.sys_a) "/data/a.txt" (-2)
       "sha256"
     = (None, [(ERROR, Unexpected_hashing_error "/data/a.txt" ValueError)])
  /\ hashfile Example.toy_hashlib (open_rb Example.sys_a) "/data/a.txt"
       (ssize_max + 1) "sha256"
     = (None, [(ERROR, Unexpected_hashing_error "/data/a.txt" OverflowError)])
  /\ hashfile Example.toy_hashlib (open_rb Example.sys_a) "/data/a.txt"
       (spare_memory + 1) "sha256"
     = (None, [(ERROR, Unexpected_hashing_error "/data/a.txt" MemoryError)]).
Proof.
  destruct (hashfile_degenerate_chunk_sizes Example.toy_hashlib
              (open_rb Example.sys_a) "/data/sub/long.txt" "sha256"
              (mkHandle (list_byte_of_string "only one of this size") None
                 spare_memory)
              eq_refl eq_refl) as [-> _].
  destruct (hashfile_degenerate_chunk_sizes Example.toy_hashlib
              (open_rb Example.sys_a) "/data/a.txt" "sha256"
              (mkHandle (list_byte_of_string "X") None spare_memory)
              eq_refl eq_refl) as [-> [Hlow [Hrange Hmem]]].
  split; [reflexivity|]. split; [|split].
  - apply Hlow. unfold ssize_max. lia.
  - apply Hrange. right. unfold bytes_max. lia.
  - apply Hmem; unfold bytes_max, ssize_max, spare_memory; simpl; lia.
Defined.

(** ** [find_duplicates]: which files meet in a group *)

Lemma two_members {A : Type} (l : list A) (p q : A) :
  p <> q -> In p l -> In q l -> (2 <= length l)%nat.
Proof.
  intros Hne Hp Hq. destruct l as [|a [|b l]]; simpl in *.
  - destruct Hp.
  - destruct Hp as [<-|[]], Hq as [<-|[]]. contradiction.
  - lia.
Qed.

Lemma digest_key_digest_of (hl : hashlib) (sys : system) (algo p h : string) :
  digest_key hl sys algo p = Some h -> digest_of hl sys algo p = Some h.
Proof.
  unfold digest_key. now destruct (truthy (digest_of hl sys algo p)).
Qed.

(** X3: two different collected files of the same recorded size and the
    same digest are members of one group of the mapping a scan returns, the
    group keyed by that digest, and of no other group. *)
Theorem equal_files_share_one_group (hl : hashlib) (sys : system)
    (top algo : string) (logged : list log_record)
    (groups : dict string (list string)) (p q : string) (size : Z)
    (h : string) :
  find_duplicates hl sys top algo = (logged, Returned groups) ->
  p <> q ->
  In p (file_list_of sys top) -> In q (file_list_of sys top) ->
  size_key sys p = Some size -> size_key sys q = Some size ->
  digest_key hl sys algo p = Some h -> digest_key hl sys algo q = Some h ->
  exists members,
    In (h, members) groups /\ In p members /\ In q members
    /\ forall h' members',
         In (h', members') groups -> In p members' ->
         h' = h /\ members' = members.
Proof.
  intros Hret Hne Hp Hq Hsp Hsq Hdp Hdq.
  apply find_duplicates_Returned in Hret. subst groups.
  set (paths := filter (has_size sys size) (file_list_of sys top)).
  assert (Hpp : In p paths)
    by (apply filter_In; split; [exact Hp|now apply has_size_key]).
  assert (Hqp : In q paths)
    by (apply filter_In; split; [exact Hq|now apply has_size_key]).
  assert (Hgroup : In (size, paths) (size_map_of sys top)).
  { apply size_map_of_In. split; [reflexivity|].
    intros E. rewrite E in Hpp. destruct Hpp. }
  assert (Hlen : (2 <= length paths)%nat) by exact (two_members _ _ _ Hne Hpp Hqp).
  assert (Hcp : In p (candidates sys top))
    by (apply candidates_In; exists size, paths; auto).
  assert (Hcq : In q (candidates sys top))
    by (apply candidates_In; exists size, paths; auto).
  set (members := filter (has_digest hl sys algo h) (candidates sys top)).
  assert (Hmp : In p members)
    by (apply filter_In; split; [exact Hcp|now apply has_digest_key]).
  assert (Hmq : In q members)
    by (apply filter_In; split; [exact Hcq|now apply has_digest_key]).
  exists members. split; [|split; [exact Hmp|split; [exact Hmq|]]].
  - apply scan_result_In. split; [reflexivity|].
    exact (two_members _ _ _ Hne Hmp Hmq).
  - intros h' members' Hin' Hp'.
    pose proof (group_member_digest _ _ _ _ _ _ _ Hin' Hp') as Hd.
    rewrite (digest_key_digest_of _ _ _ _ _ Hdp) in Hd. injection Hd as <-.
    split; [reflexivity|]. apply scan_result_In in Hin'. now destruct Hin'.
Qed.

Lemma equal_files_share_one_group_witness :
  exists members,
    In ("h:X", members) Example.groups
    /\ In "/data/a.txt" members /\ In "/data/sub/d.txt" members
    /\ forall h' members',
         In (h', members') Example.groups -> In "/data/a.txt" members' ->
         h' = "h:X" /\ members' = members.
Proof.
  apply (equal_files_share_one_group Example.toy_hashlib Example.sys_a
           Example.top "sha256"
           [(INFO, Pass1_grouping); (INFO, Pass2_hashing)] Example.groups
           "/data/a.txt" "/data/sub/d.txt" 1 "h:X");
    try reflexivity; try discriminate; vm_compute; auto 10.
Defined.

Lemma NoDup_keys_filter {K V : Type} (keep : K * V -> bool) (d : dict K V) :
  NoDup (keys d) -> NoDup (keys (filter keep d)).
Proof.
  induction d as [|[k v] d IH]; intros Hnd; [constructor|].
  simpl in Hnd. apply NoDup_cons_iff in Hnd. destruct Hnd as [Hk Hnd].
  cbn [filter]. destruct (keep (k, v)); [|now apply IH].
  simpl. constructor; [|now apply IH].
  intros Hin. apply Hk. unfold keys in *. apply in_map_iff in Hin.
  destruct Hin as [[k' v'] [E Hin]]. simpl in E. subst k'.
  apply filter_In in Hin. destruct Hin as [Hin _].
  apply (in_map fst) in Hin. exact Hin.
Qed.

(** X4: when the walk collects no path twice, the mapping a scan returns
    has no digest twice among its keys and no path twice among its members:
    no path is in two groups, nor twice in one. *)
Theorem no_path_in_two_groups (hl : hashlib) (sys : system)
    (top algo : string) (logged : list log_record)
    (groups : dict string (list string)) :
  find_duplicates hl sys top algo = (logged, Returned groups) ->
  NoDup (file_list_of sys top) ->
  NoDup (keys groups) /\ NoDup (concat (values groups)).
Proof.
  intros Hret Hnd. apply find_duplicates_Returned in Hret. subst groups.
  split; [|now apply scan_result_NoDup].
  unfold scan_result. apply NoDup_keys_filter, NoDup_grouped.
  apply String.eqb_eq.
Qed.

Lemma no_path_in_two_groups_witness :
  NoDup (file_list_of Example.sys_a Example.top)
  /\ NoDup (keys Example.groups) /\ NoDup (concat (values Example.groups)).
Proof.
  assert (Hnd : NoDup (file_list_of Example.sys_a Example.top)).
  { vm_compute. repeat constructor; simpl; intuition discriminate. }
  split; [exact Hnd|].
  apply (no_path_in_two_groups Example.toy_hashlib Example.sys_a Example.top
           "sha256" [(INFO, Pass1_grouping); (INFO, Pass2_hashing)]
           Example.groups); [reflexivity|exact Hnd].
Defined.

Lemma file_list_of_not_link (sys : system) (top p : string) :
  In p (file_list_of sys top) -> islink sys p = false.
Proof.
  unfold file_list_of. destruct (walk sys top) as [e|triples]; [intros []|].
  rewrite collect_files_flat_map, in_flat_map.
  intros [t [_ Hp]]. apply filter_In in Hp. destruct Hp as [_ Hp].
  now apply negb_true_iff.
Qed.

(** X5: a scan invents nothing: every member of a group of the mapping it
    returns is a path the walk collected, which is not a link, whose size was
    recorded and is the recorded size of at least one other collected path,
    and whose digest is the key of the group, a non-empty string. *)
Theorem group_members_are_hashed_files (hl : hashlib) (sys : system)
    (top algo : string) (logged : list log_record)
    (groups : dict string (list string)) (h : string) (members : list string)
    (p : string) :
  find_duplicates hl sys top algo = (logged, Returned groups) ->
  In (h, members) groups -> In p members ->
  In p (file_list_of sys top)
  /\ islink sys p = false
  /\ (exists size,
        size_key sys p = Some size
        /\ (2 <= length (filter (has_size sys size) (file_list_of sys top)))%nat)
  /\ digest_of hl sys algo p = Some h
  /\ h <> "".
Proof.
  intros Hret Hgroup Hp.
  apply find_duplicates_Returned in Hret. subst groups.
  pose proof (group_member_digest _ _ _ _ _ _ _ Hgroup Hp) as Hd.
  apply scan_result_In in Hgroup. destruct Hgroup as [-> _].
  apply filter_In in Hp. destruct Hp as [Hc Hkey].
  apply has_digest_key in Hkey.
  apply candidates_In in Hc. destruct Hc as [size [paths [Hsize [Hlen Hin]]]].
  apply size_map_of_In in Hsize. destruct Hsize as [-> _].
  apply filter_In in Hin. destruct Hin as [Hfl Hs].
  split; [exact Hfl|]. split; [now apply (file_list_of_not_link sys top)|].
  split; [exists size; split; [now apply has_size_key|exact Hlen]|].
  split; [exact Hd|].
  intros ->. unfold digest_key in Hkey. rewrite Hd in Hkey. discriminate.
Qed.

Lemma group_members_are_hashed_files_witness :
  In "/data/sub/f1" (file_list_of Example.sys_a Example.top)
  /\ islink Example.sys_a "/data/sub/f1" = false
  /\ (exists size,
        size_key Example.sys_a "/data/sub/f1" = Some size
        /\ (2 <= length (filter (has_size Example.sys_a size)
                           (file_list_of Example.sys_a Example.top)))%nat)
  /\ digest_of Example.toy_hashlib Example.sys_a "sha256" "/data/sub/f1"
     = Some "h:ZZ"
  /\ "h:ZZ" <> "".
Proof.
  apply (group_members_are_hashed_files Example.toy_hashlib Example.sys_a
           Example.top "sha256" [(INFO, Pass1_grouping); (INFO, Pass2_hashing)]
           Example.groups "h:ZZ" ["/data/f2"; "/data/sub/f1"]);
    [reflexivity|right; left; reflexivity|right; left; reflexivity].
Defined.

(** ** [find_duplicates]: the size pass *)

(** X6: the size pass logs one warning for each file whose size cannot be
    queried, in the order of the files, and nothing else; and such a file is
    in no size group. *)
Theorem size_pass_skips_with_a_warning (sys : system)
    (file_list : list string) :
  snd (size_pass sys file_list)
  = flat_map
      (fun path =>
         match getsize sys path with
         | inl e => [(WARNING, Skipping_error path e)]
         | inr _ => []
         end)
      file_list
  /\ forall path e,
       getsize sys path = inl e ->
       ~ In path (concat (values (fst (size_pass sys file_list)))).
Proof.
  split.
  - unfold size_pass.
    match goal with
    | |- snd (fold_left ?F _ _) = flat_map ?W _ =>
        assert (H : forall st, snd (fold_left F file_list st)
                               = snd st ++ flat_map W file_list)
    end; [|apply H].
    induction file_list as [|p file_list IH]; intros [size_map logged].
    + simpl. now rewrite app_nil_r.
    + cbn [fold_left flat_map]. rewrite IH.
      destruct (getsize sys p); cbn [snd]; [|reflexivity].
      now rewrite <- app_assoc.
  - intros path e Hfail Hin. rewrite size_pass_grouped in Hin.
    apply in_concat in Hin. destruct Hin as [paths [Hgroup Hin]].
    apply in_map_iff in Hgroup. destruct Hgroup as [[size paths'] [E Hgroup]].
    simpl in E. subst paths'.
    apply (In_grouped Z.eqb Z.eqb_eq) in Hgroup. destruct Hgroup as [-> _].
    rewrite selected_id in Hin. apply filter_In in Hin.
    destruct Hin as [_ Hkey]. unfold size_key in Hkey.
    rewrite Hfail in Hkey. discriminate.
Qed.

(** X7: when no two collected files have the same recorded size, the scan
    returns the empty mapping after the first pass: nothing is hashed, the
    pool is not started, and so the scan returns whatever the pool would have
    done. *)
Theorem no_size_collision_no_hashing (hl : hashlib) (sys : system)
    (top algo : string) (triples : list walk_triple) :
  walk sys top = inr triples ->
  (forall size,
     (length (filter (has_size sys size) (file_list_of sys top)) <= 1)%nat) ->
  find_duplicates hl sys top algo
  = ((INFO, Pass1_grouping) :: snd (size_pass sys (file_list_of sys top)),
     Returned []).
Proof.
  intros Hwalk Hunique.
  rewrite (find_duplicates_unfold hl sys top algo triples Hwalk). cbv zeta.
  assert (Hnone : candidates sys top = []).
  { destruct (candidates sys top) as [|p rest] eqn:E; [reflexivity|].
    assert (Hin : In p (candidates sys top)) by (rewrite E; now left).
    apply candidates_In in Hin. destruct Hin as [size [paths [Hgroup [Hlen _]]]].
    apply size_map_of_In in Hgroup. destruct Hgroup as [-> _].
    specialize (Hunique size). lia. }
  now rewrite Hnone.
Qed.

Lemma no_size_collision_no_hashing_witness :
  find_duplicates Example.toy_hashlib Unique.sys "/u" "sha256"
  = ([(INFO, Pass1_grouping)], Returned []).
Proof.
  apply (no_size_collision_no_hashing Example.toy_hashlib Unique.sys "/u"
           "sha256" (os_walk "/u" Unique.tree) eq_refl).
  intros size.
  change (file_list_of Unique.sys "/u") with ["/u/x"; "/u/y"; "/u/z"].
  cbn [filter].
  change (has_size Unique.sys size "/u/x") with (size =? 1).
  change (has_size Unique.sys size "/u/y") with (size =? 2).
  change (has_size Unique.sys size "/u/z") with (size =? 3).
  destruct (Z.eqb_spec size 1) as [->|_]; [simpl; lia|].
  destruct (Z.eqb_spec size 2) as [->|_]; [simpl; lia|].
  destruct (size =? 3); simpl; lia.
Defined.

(** ** [delete_duplicates]: what the answers decide *)

Lemma removed_paths_app (t1 t2 : list event) :
  removed_paths (t1 ++ t2) = removed_paths t1 ++ removed_paths t2.
Proof. apply flat_map_app. Qed.

Lemma typed_answers_app (t1 t2 : list event) :
  typed_answers (t1 ++ t2) = typed_answers t1 ++ typed_answers t2.
Proof. apply flat_map_app. Qed.

Lemma announce_silent (original : string) (dups : list string) :
  removed_paths (announce original dups) = []
  /\ typed_answers (announce original dups) = [].
Proof.
  unfold announce. generalize 0. simpl.
  induction dups as [|d dups IH]; intros i; simpl; [now split|apply IH].
Qed.

Lemma remove_all_trace (os_remove : string -> option exn)
    (dups : list string) :
  removed_paths (remove_all os_remove dups) = dups
  /\ typed_answers (remove_all os_remove dups) = [].
Proof.
  unfold remove_all. induction dups as [|d dups [IHr IHt]]; [now split|].
  cbn [flat_map]. rewrite removed_paths_app, typed_answers_app, IHr, IHt.
  now destruct (os_remove d).
Qed.

Lemma delete_duplicates_loop (os_remove : string -> option exn)
    (duplicate_groups : dict string (list string)) (dry_run : bool)
    (answers : list string) :
  removed_paths
    (fst (delete_duplicates os_remove duplicate_groups dry_run answers))
  = removed_paths
      (fst (delete_loop os_remove dry_run (values duplicate_groups) answers))
  /\ typed_answers
       (fst (delete_duplicates os_remove duplicate_groups dry_run answers))
     = typed_answers
         (fst (delete_loop os_remove dry_run (values duplicate_groups)
                 answers))
  /\ (duplicate_groups <> [] ->
      snd (delete_duplicates os_remove duplicate_groups dry_run answers)
      = snd (delete_loop os_remove dry_run (values duplicate_groups) answers)).
Proof.
  unfold delete_duplicates. destruct duplicate_groups as [|g gs].
  - repeat split.
  - destruct (delete_loop os_remove dry_run (values (g :: gs)) answers)
      as [after out].
    repeat split.
Qed.

Lemma delete_loop_all_yes (os_remove : string -> option exn)
    (groups : list (list string)) :
  Forall (fun file_paths => file_paths <> []) groups ->
  forall answers,
    (length groups <= length answers)%nat ->
    Forall (fun a => lower a = "y") (firstn (length groups) answers) ->
    removed_paths (fst (delete_loop os_remove false groups answers))
    = concat (map (@tl string) groups)
    /\ typed_answers (fst (delete_loop os_remove false groups answers))
       = firstn (length groups) answers
    /\ snd (delete_loop os_remove false groups answers) = Returned tt.
Proof.
  induction 1 as [|[|original dups] groups Hne _ IH]; intros answers Hlen Hyes;
    [now repeat split|congruence|].
  destruct answers as [|answer answers]; [simpl in Hlen; lia|].
  simpl in Hlen, Hyes. inversion Hyes as [|? ? Hy Hrest]; subst.
  cbn [delete_loop]. rewrite Hy. cbn [String.eqb Ascii.eqb Bool.eqb andb].
  destruct (IH answers ltac:(lia) Hrest) as [IHr [IHt IHo]].
  destruct (delete_loop os_remove false groups answers) as [after out].
  cbn [fst snd] in *.
  destruct (announce_silent original dups) as [Har Hat].
  destruct (remove_all_trace os_remove dups) as [Hrr Hrt].
  rewrite removed_paths_app, typed_answers_app, Har, Hat.
  cbn [removed_paths typed_answers flat_map app].
  fold (removed_paths (remove_all os_remove dups ++ after)).
  fold (typed_answers (remove_all os_remove dups ++ after)).
  rewrite removed_paths_app, typed_answers_app, Hrr, Hrt, IHr, IHt.
  repeat split. exact IHo.
Qed.

(** X8: in live mode, when every group is confirmed (an answer that reads
    y in lower case for each), the paths handed to [os.remove] are, group
    after group, all the members but the first, each once, whether the
    removals succeed or fail; one answer is read per group and the phase ends
    normally. *)
Theorem confirming_every_group_removes_all_but_first
    (os_remove : string -> option exn)
    (duplicate_groups : dict string (list string)) (answers : list string) :
  Forall (fun file_paths => file_paths <> []) (values duplicate_groups) ->
  (length duplicate_groups <= length answers)%nat ->
  Forall (fun a => lower a = "y") (firstn (length duplicate_groups) answers) ->
  removed_paths (fst (delete_duplicates os_remove duplicate_groups false answers))
  = concat (map (@tl string) (values duplicate_groups))
  /\ typed_answers
       (fst (delete_duplicates os_remove duplicate_groups false answers))
     = firstn (length duplicate_groups) answers
  /\ snd (delete_duplicates os_remove duplicate_groups false answers)
     = Returned tt.
Proof.
  intros Hne Hlen Hyes.
  assert (Hl : length (values duplicate_groups) = length duplicate_groups)
    by apply length_map.
  destruct (delete_loop_all_yes os_remove (values duplicate_groups) Hne answers)
    as [Hr [Ht Ho]]; rewrite ?Hl; try assumption.
  destruct (delete_duplicates_loop os_remove duplicate_groups false answers)
    as [Er [Et Eo]].
  rewrite Er, Et, Hr, Ht, Hl. repeat split.
  destruct duplicate_groups as [|g gs]; [reflexivity|].
  rewrite Eo by discriminate. exact Ho.
Qed.

Lemma confirming_every_group_removes_all_but_first_witness :
  removed_paths
    (fst (delete_duplicates (fun p => if (p =? "/data/b.txt")%string
                                      then Some PermissionError else None)
            Example.groups false ["Y"; "y"; "n"]))
  = ["/data/b.txt"; "/data/sub/d.txt"; "/data/sub/f1"].
Proof.
  apply (confirming_every_group_removes_all_but_first
           (fun p => if (p =? "/data/b.txt")%string
                     then Some PermissionError else None)
           Example.groups ["Y"; "y"; "n"]).
  - repeat constructor; discriminate.
  - simpl. lia.
  - repeat constructor.
Defined.

(** X9: nothing is handed to [os.remove] unless some answer at the prompt
    reads y in lower case: any other answer, the empty one and longer words
    such as yes included, deletes nothing. *)
Theorem no_removal_without_a_y (os_remove : string -> option exn)
    (duplicate_groups : dict string (list string)) (dry_run : bool)
    (answers : list string) (p : string) (failure : option exn) :
  In (Remove p failure)
    (fst (delete_duplicates os_remove duplicate_groups dry_run answers)) ->
  exists a, In a answers /\ lower a = "y".
Proof.
  intros Hin.
  assert (Hloop : In (Remove p failure)
                    (fst (delete_loop os_remove dry_run
                            (values duplicate_groups) answers))).
  { unfold delete_duplicates in Hin. destruct duplicate_groups as [|g gs].
    - destruct Hin as [E|[]]. discriminate.
    - destruct (delete_loop os_remove dry_run (values (g :: gs)) answers)
        as [after out].
      destruct Hin as [E|[E|Hin]]; try discriminate. exact Hin. }
  clear Hin. destruct dry_run.
  - destruct (delete_loop_dry_run os_remove (values duplicate_groups) answers)
      as [Hlog _].
    destruct (Hlog _ Hloop) as [r E]. discriminate.
  - revert answers Hloop.
    induction (values duplicate_groups) as [|[|original dups] groups IH];
      intros answers Hin; [destruct Hin|destruct Hin|].
    cbn [delete_loop] in Hin.
    assert (Hshown : ~ In (Remove p failure) (announce original dups)).
    { intros H. apply announce_only_logs in H. destruct H; discriminate. }
    destruct answers as [|answer answers]; [contradiction|].
    specialize (IH answers).
    destruct (delete_loop os_remove false groups answers) as [after out].
    destruct (String.eqb_spec (lower answer) "y") as [Hy|_].
    + exists answer. split; [now left|exact Hy].
    + assert (Hafter : In (Remove p failure) after).
      { destruct (lower answer =? "a")%string; cbn [fst] in Hin;
          apply in_app_or in Hin; destruct Hin as [Hin|Hin];
          try contradiction.
        - destruct Hin as [E|[E|[]]]; discriminate.
        - destruct Hin as [E|Hin]; [discriminate|exact Hin]. }
      destruct (IH Hafter) as [a [Ha Hy]]. exists a. split; [now right|exact Hy].
Qed.

Lemma no_removal_without_a_y_witness :
  exists a, In a ["no"; "Y"] /\ lower a = "y".
Proof.
  apply (no_removal_without_a_y (fun _ => None) Example.groups false
           ["no"; "Y"] "/data/sub/f1" None).
  vm_compute. auto 30.
Defined.

Lemma delete_loop_abort (os_remove : string -> option exn)
    (original : string) (dups : list string) (groups2 : list (list string))
    (a : string) (rest : list string) :
  lower a = "a" ->
  forall (groups1 : list (list string)) (before : list string),
    length before = length groups1 ->
    Forall (fun file_paths => file_paths <> []) groups1 ->
    Forall (fun x => lower x <> "a") before ->
    delete_loop os_remove false (groups1 ++ (original :: dups) :: groups2)
      (before ++ a :: rest)
    = (fst (delete_loop os_remove false groups1 before)
         ++ announce original dups
         ++ [Input a; Log (INFO, Deletion_aborted)],
       Returned tt).
Proof.
  intros Ha.
  induction groups1 as [|[|o1 d1] groups1 IH]; intros before Hlen Hne Hno.
  - destruct before; [|discriminate]. cbn [app delete_loop fst].
    rewrite Ha. reflexivity.
  - inversion Hne; subst. congruence.
  - destruct before as [|b before]; [discriminate|].
    injection Hlen as Hlen.
    inversion Hne as [|? ? _ Hne']; subst.
    inversion Hno as [|? ? Hb Hno']; subst.
    cbn [app delete_loop]. rewrite (IH before Hlen Hne' Hno').
    destruct (delete_loop os_remove false groups1 before) as [after out].
    cbn [fst].
    destruct (String.eqb_spec (lower b) "a") as [E|_]; [contradiction|].
    destruct (lower b =? "y")%string; cbn [fst];
      rewrite <- ?app_assoc; cbn [app]; rewrite <- ?app_assoc; reflexivity.
Qed.

(** X10: in live mode, once an answer reads a in lower case, the phase
    ends normally: nothing of that group or of a later group is removed,
    nothing more is asked, and what was removed before is what would have
    been removed had the mapping ended before that group. *)
Theorem abort_stops_all_deletion (os_remove : string -> option exn)
    (groups1 groups2 : dict string (list string)) (h original : string)
    (dups : list string) (before : list string) (a : string)
    (rest : list string) :
  lower a = "a" ->
  length before = length groups1 ->
  Forall (fun file_paths => file_paths <> []) (values groups1) ->
  Forall (fun x => lower x <> "a") before ->
  let phase := delete_duplicates os_remove
               (groups1 ++ (h, original :: dups) :: groups2) false
               (before ++ a :: rest) in
  removed_paths (fst phase)
  = removed_paths (fst (delete_duplicates os_remove groups1 false before))
  /\ typed_answers (fst phase)
     = typed_answers (fst (delete_duplicates os_remove groups1 false before))
       ++ [a]
  /\ snd phase = Returned tt.
Proof.
  intros Ha Hlen Hne Hno phase. subst phase.
  destruct (delete_duplicates_loop os_remove
              (groups1 ++ (h, original :: dups) :: groups2) false
              (before ++ a :: rest)) as [Er [Et Eo]].
  destruct (delete_duplicates_loop os_remove groups1 false before)
    as [Er1 [Et1 _]].
  rewrite Er, Et, Er1, Et1, Eo by (destruct groups1; discriminate).
  unfold values. rewrite map_app. cbn [map snd].
  rewrite (delete_loop_abort os_remove original dups (map snd groups2) a rest
             Ha (map snd groups1) before);
    [|now rewrite length_map|exact Hne|exact Hno].
  cbn [fst snd].
  destruct (announce_silent original dups) as [Har Hat].
  rewrite !removed_paths_app, !typed_answers_app, Har, Hat.
  cbn [removed_paths typed_answers flat_map app].
  now rewrite !app_nil_r.
Qed.

Lemma abort_stops_all_deletion_witness :
  removed_paths
    (fst (delete_duplicates (fun _ => None) Example.groups false
            ["y"; "A"; "y"]))
  = ["/data/b.txt"; "/data/sub/d.txt"].
Proof.
  destruct (abort_stops_all_deletion (fun _ => None)
              [("h:X", ["/data/a.txt"; "/data/b.txt"; "/data/sub/d.txt"])] []
              "h:ZZ" "/data/f2" ["/data/sub/f1"] ["y"] "A" ["y"]
              eq_refl eq_refl)
    as [Hr _].
  - repeat constructor. discriminate.
  - repeat constructor. discriminate.
  - exact Hr.
Defined.

(** ** [save_to_csv] *)

Lemma report_rows_nonempty (groups : list (list string)) :
  Forall (fun file_paths => file_paths <> []) groups ->
  report_rows groups = (data_rows groups, None).
Proof.
  induction 1 as [|[|original dups] groups Hne _ IH]; [reflexivity|congruence|].
  cbn [report_rows data_rows flat_map]. now rewrite IH.
Qed.

Lemma rows_written_app (t1 t2 : list io_event) :
  rows_written (t1 ++ t2) = rows_written t1 ++ rows_written t2.
Proof. apply flat_map_app. Qed.

Lemma rows_written_rows (rows : list (list string)) :
  rows_written (map WriteRow rows) = rows.
Proof.
  induction rows as [|row rows IH]; [reflexivity|].
  simpl. fold (rows_written (map WriteRow rows)). now rewrite IH.
Qed.

Lemma rows_written_report (output_path : string) (failure : option exn)
    (rows : list (list string)) (l : level) (m : ui_message) :
  rows_written (OpenCsv output_path failure :: map WriteRow rows ++ [Say l m])
  = rows.
Proof.
  change (OpenCsv output_path failure :: map WriteRow rows ++ [Say l m])
    with ([OpenCsv output_path failure] ++ map WriteRow rows ++ [Say l m]).
  rewrite !rows_written_app, rows_written_rows. simpl. apply app_nil_r.
Qed.

Lemma save_to_csv_saved (open_w : string -> exn + option (nat * exn))
    (duplicate_groups : dict string (list string)) (output_path : string) :
  duplicate_groups <> [] ->
  Forall (fun file_paths => file_paths <> []) (values duplicate_groups) ->
  open_w output_path = inr None ->
  save_to_csv open_w duplicate_groups output_path
  = (OpenCsv output_path None
       :: map WriteRow (header_row :: data_rows (values duplicate_groups))
       ++ [Say INFO (Report_saved output_path)],
     Returned tt).
Proof.
  intros Hgroups Hne Hopen. unfold save_to_csv.
  destruct duplicate_groups as [|g gs]; [congruence|].
  rewrite Hopen, (report_rows_nonempty _ Hne).
  now rewrite firstn_all.
Qed.

Lemma duplicate_column_data_rows (groups : list (list string)) :
  map duplicate_column (data_rows groups) = concat (map (@tl string) groups).
Proof.
  induction groups as [|[|original dups] groups IH]; [reflexivity|exact IH|].
  cbn [data_rows flat_map map concat tl].
  fold (data_rows groups). rewrite map_app, IH, map_map.
  cbn [duplicate_column nth]. now rewrite map_id.
Qed.

Lemma num_duplicates_data_rows (duplicate_groups : dict string (list string)) :
  Forall (fun file_paths => file_paths <> []) (values duplicate_groups) ->
  num_duplicates_of duplicate_groups = len (data_rows (values duplicate_groups)).
Proof.
  unfold num_duplicates_of. intros Hne.
  assert (H : forall acc,
             fold_left (fun (acc : Z) (v : list string) => acc + (len v - 1))
               (values duplicate_groups) acc
             = acc + len (data_rows (values duplicate_groups))).
  { induction Hne as [|[|original dups] groups Hg _ IH]; intros acc.
    - unfold len. simpl. lia.
    - congruence.
    - cbn [fold_left data_rows flat_map]. fold (data_rows groups).
      rewrite IH. unfold len. rewrite length_app, length_map. simpl length.
      lia. }
  rewrite H. lia.
Qed.

Lemma data_rows_In (groups : list (list string)) (row : list string) :
  In row (data_rows groups)
  <-> exists original dups d,
        In (original :: dups) groups /\ In d dups /\ row = [original; d].
Proof.
  unfold data_rows. rewrite in_flat_map. split.
  - intros [[|original dups] [Hg Hrow]]; [destruct Hrow|].
    apply in_map_iff in Hrow. destruct Hrow as [d [<- Hd]].
    now exists original, dups, d.
  - intros [original [dups [d [Hg [Hd ->]]]]]. exists (original :: dups).
    split; [exact Hg|]. apply in_map_iff. now exists d.
Qed.

(** X11: when the mapping is not empty and the report can be opened and
    written, [save_to_csv] writes the header and then, for every group and
    every member after the first, one row pairing the first member with it,
    and announces the report as saved.  So the second column lists, group
    after group, every member but the first, once; and the number of rows
    after the header is the number of duplicates [main] announces. *)
Theorem saved_report_lists_every_duplicate
    (open_w : string -> exn + option (nat * exn))
    (duplicate_groups : dict string (list string)) (output_path : string) :
  duplicate_groups <> [] ->
  Forall (fun file_paths => file_paths <> []) (values duplicate_groups) ->
  open_w output_path = inr None ->
  let rows := data_rows (values duplicate_groups) in
  save_to_csv open_w duplicate_groups output_path
  = (OpenCsv output_path None :: map WriteRow (header_row :: rows)
       ++ [Say INFO (Report_saved output_path)],
     Returned tt)
  /\ map duplicate_column rows
     = concat (map (@tl string) (values duplicate_groups))
  /\ len rows = num_duplicates_of duplicate_groups
  /\ forall row,
       In row rows
       <-> exists h original dups d,
             In (h, original :: dups) duplicate_groups
             /\ In d dups /\ row = [original; d].
Proof.
  intros Hgroups Hne Hopen rows. subst rows.
  split; [now apply save_to_csv_saved|].
  split; [apply duplicate_column_data_rows|].
  split; [now rewrite num_duplicates_data_rows|].
  intros row. rewrite data_rows_In. split.
  - intros [original [dups [d [Hg [Hd ->]]]]]. apply in_map_iff in Hg.
    destruct Hg as [[h ps] [E Hg]]. simpl in E. subst ps.
    now exists h, original, dups, d.
  - intros [h [original [dups [d [Hg [Hd ->]]]]]].
    exists original, dups, d. split; [|now split].
    apply in_map_iff. now exists (h, original :: dups).
Qed.

Lemma saved_report_lists_every_duplicate_witness :
  save_to_csv (fun _ => inr None) Example.groups "report.csv"
  = (OpenCsv "report.csv" None
       :: map WriteRow
            (header_row
               :: [["/data/a.txt"; "/data/b.txt"];
                   ["/data/a.txt"; "/data/sub/d.txt"];
                   ["/data/f2"; "/data/sub/f1"]])
       ++ [Say INFO (Report_saved "report.csv")],
     Returned tt).
Proof.
  apply (saved_report_lists_every_duplicate (fun _ => inr None) Example.groups
           "report.csv").
  - discriminate.
  - repeat constructor; discriminate.
  - reflexivity.
Defined.



(** X13: the report and the deletion phase agree: what a saved report
    lists in its second column is, in the same order, what the deletion
    phase hands to [os.remove] when every group is confirmed, and their
    number is the number of duplicates [main] announces. *)
Theorem report_matches_confirmed_deletion
    (open_w : string -> exn + option (nat * exn))
    (os_remove : string -> option exn)
    (duplicate_groups : dict string (list string)) (output_path : string)
    (answers : list string) :
  duplicate_groups <> [] ->
  Forall (fun file_paths => file_paths <> []) (values duplicate_groups) ->
  open_w output_path = inr None ->
  (length duplicate_groups <= length answers)%nat ->
  Forall (fun a => lower a = "y") (firstn (length duplicate_groups) answers) ->
  let removed :=
    removed_paths
      (fst (delete_duplicates os_remove duplicate_groups false answers)) in
  map duplicate_column
    (tl (rows_written (fst (save_to_csv open_w duplicate_groups output_path))))
  = removed
  /\ num_duplicates_of duplicate_groups = len removed.
Proof.
  intros Hgroups Hne Hopen Hlen Hyes removed. subst removed.
  rewrite (save_to_csv_saved _ _ _ Hgroups Hne Hopen). cbn [fst].
  assert (Hrows : rows_written
                    (OpenCsv output_path None
                       :: map WriteRow
                            (header_row :: data_rows (values duplicate_groups))
                       ++ [Say INFO (Report_saved output_path)])
                  = header_row :: data_rows (values duplicate_groups))
    by apply rows_written_report.
  rewrite Hrows. cbn [tl].
  assert (Hl : length (values duplicate_groups) = length duplicate_groups)
    by apply length_map.
  destruct (delete_loop_all_yes os_remove (values duplicate_groups) Hne answers)
    as [Hr _]; rewrite ?Hl; try assumption.
  destruct (delete_duplicates_loop os_remove duplicate_groups false answers)
    as [Er _].
  rewrite Er, Hr, duplicate_column_data_rows. split; [reflexivity|].
  rewrite (num_duplicates_data_rows _ Hne), <- duplicate_column_data_rows.
  unfold len. now rewrite length_map.
Qed.

Lemma report_matches_confirmed_deletion_witness :
  num_duplicates_of Example.groups
  = len (removed_paths
           (fst (delete_duplicates (fun _ => None) Example.groups false
                   ["y"; "y"]))).
Proof.
  apply (report_matches_confirmed_deletion (fun _ => inr None) (fun _ => None)
           Example.groups "report.csv" ["y"; "y"]).
  - discriminate.
  - repeat constructor; discriminate.
  - reflexivity.
  - simpl. lia.
  - repeat constructor.
Defined.

(** ** [interactive_mode] *)

Lemma ask_directory_first (isdir : string -> bool) (answers : list string) :
  forall asked p rest,
    ask_directory isdir answers = (asked, inr (p, rest)) ->
    find isdir answers = Some p
    /\ exists rejected,
         answers = rejected ++ p :: rest
         /\ Forall (fun a => isdir a = false) rejected.
Proof.
  induction answers as [|a answers IH]; intros asked p rest; simpl;
    [discriminate|].
  destruct (isdir a) eqn:Ha.
  - intros [= _ <- <-]. split; [reflexivity|]. exists []. now split.
  - destruct (ask_directory isdir answers) as [after r].
    intros [= _ ->]. destruct (IH after p rest eq_refl) as [Hfind [rej [-> Hrej]]].
    split; [exact Hfind|]. exists (a :: rej). split; [reflexivity|].
    now constructor.
Qed.

(** X14: whenever [interactive_mode] returns, the directory it returns is
    the first answer that is a directory (the answers before it were each
    refused), the report name is not empty, the algorithm is md5 or sha256,
    a dry run is only ever set together with deletion, and the lines left on
    the terminal are the end of those it was given. *)
Theorem interactive_mode_settings (isdir : string -> bool)
    (answers : list string) (events : list io_event) (s : settings)
    (rest : list string) :
  interactive_mode isdir answers = (events, Returned (s, rest)) ->
  (exists p, directory_path s = Some p /\ find isdir answers = Some p)
  /\ output_filename s <> ""
  /\ (hash_algo s = "md5" \/ hash_algo s = "sha256")
  /\ (dry_run s = true -> delete s = true)
  /\ exists used, answers = used ++ rest.
Proof.
  unfold interactive_mode.
  destruct (ask_directory isdir answers) as [asked [e|[p answers1]]] eqn:Hask;
    [discriminate|].
  destruct (ask_directory_first _ _ _ _ _ Hask) as [Hfind [rej [-> _]]].
  destruct answers1 as [|typed_name [|delete_answer answers3]];
    [discriminate|discriminate|].
  cbv zeta.
  assert (Hname : (if (typed_name =? "")%string then "duplicate_files.csv"
                   else typed_name) <> "").
  { destruct (String.eqb_spec typed_name ""); [discriminate|assumption]. }
  assert (Halgo : forall a,
            (if (lower a =? "md5")%string then "md5" else "sha256") = "md5"
            \/ (if (lower a =? "md5")%string then "md5" else "sha256")
               = "sha256").
  { intros a. destruct (lower a =? "md5")%string; [now left|now right]. }
  destruct (lower delete_answer =? "y")%string eqn:Hdel.
  - destruct answers3 as [|dry_answer [|algo_answer answers5]];
      [discriminate|discriminate|].
    intros [= _ <- <-]. cbn [directory_path output_filename hash_algo dry_run
                               delete].
    split; [now exists p|]. split; [exact Hname|]. split; [apply Halgo|].
    split; [reflexivity|].
    exists (rej ++ [p; typed_name; delete_answer; dry_answer; algo_answer]).
    now rewrite <- app_assoc.
  - destruct answers3 as [|algo_answer answers5]; [discriminate|].
    intros [= _ <- <-]. cbn [directory_path output_filename hash_algo dry_run
                               delete].
    split; [now exists p|]. split; [exact Hname|]. split; [apply Halgo|].
    split; [discriminate|].
    exists (rej ++ [p; typed_name; delete_answer; algo_answer]).
    now rewrite <- app_assoc.
Qed.

Lemma interactive_mode_settings_witness :
  exists p,
    Some "/data" = Some p
    /\ find (isdir Session.machine_ok) ["/nope"; "/data"; ""; "Y"; "n"; "MD5"; "y"]
       = Some p.
Proof.
  exact (proj1 (interactive_mode_settings (isdir Session.machine_ok)
                  ["/nope"; "/data"; ""; "Y"; "n"; "MD5"; "y"]
                  [Say INFO Running_interactive; Say INFO Enter_options;
                   Prompt Ask_directory "/nope"; Say ERROR Invalid_path;
                   Prompt Ask_directory "/data"; Prompt Ask_output "";
                   Prompt Ask_delete "Y"; Prompt Ask_dry_run "n";
                   Prompt Ask_hash_algo "MD5"]
                  (mkSettings (Some "/data") "duplicate_files.csv" true false
                     "md5")
                  ["y"] eq_refl)).
Defined.

(** ** A run as a whole *)

Lemma core_events_app (t1 t2 : list io_event) :
  core_events (t1 ++ t2) = core_events t1 ++ core_events t2.
Proof. apply flat_map_app. Qed.

Lemma core_events_In (c : event) (t : list io_event) :
  In (Core c) t <-> In c (core_events t).
Proof.
  unfold core_events. rewrite in_flat_map. split.
  - intros H. exists (Core c). split; [exact H|now left].
  - intros [e [He Hc]]. destruct e; simpl in Hc; try contradiction.
    destruct Hc as [->|[]]. exact He.
Qed.

Lemma core_events_lift_Core (events : list event) :
  core_events (lift Core events) = events.
Proof.
  induction events as [|e events IH]; [reflexivity|].
  simpl. fold (core_events (lift Core events)). now rewrite IH.
Qed.

Lemma core_events_lift_Scan (logged : list log_record) :
  core_events (lift Scan logged) = [].
Proof. induction logged as [|r logged IH]; [reflexivity|exact IH]. Qed.

Lemma core_events_rows (rows : list (list string)) :
  core_events (map WriteRow rows) = [].
Proof. induction rows as [|r rows IH]; [reflexivity|exact IH]. Qed.

Lemma rows_written_lift_Core (events : list event) :
  rows_written (lift Core events) = [].
Proof. induction events as [|e events IH]; [reflexivity|exact IH]. Qed.

Lemma core_events_save_to_csv (open_w : string -> exn + option (nat * exn))
    (duplicate_groups : dict string (list string)) (output_path : string) :
  core_events (fst (save_to_csv open_w duplicate_groups output_path)) = [].
Proof.
  unfold save_to_csv. destruct duplicate_groups as [|g gs]; [reflexivity|].
  destruct (open_w output_path) as [e|fault].
  - now destruct (is_OSError e).
  - destruct (report_rows (values (g :: gs))) as [rows stop]. cbv zeta.
    assert (H : forall n tail,
              core_events tail = [] ->
              core_events
                ((OpenCsv output_path None
                    :: map WriteRow (firstn n (header_row :: rows))) ++ tail)
              = []).
    { intros n tail Htail.
      change (OpenCsv output_path None
                :: map WriteRow (firstn n (header_row :: rows)))
        with ([OpenCsv output_path None]
                ++ map WriteRow (firstn n (header_row :: rows))).
      now rewrite !core_events_app, core_events_rows, Htail. }
    assert (H0 : forall n,
              core_events
                (OpenCsv output_path None
                   :: map WriteRow (firstn n (header_row :: rows)))
              = []).
    { intros n. rewrite <- (app_nil_r (_ :: _)). now apply H. }
    destruct fault as [[k e]|];
      [destruct (k <=? _)%nat; [destruct (is_OSError e)|]|];
      try destruct stop; cbn [fst]; first [apply H0 | now apply H].
Qed.

Lemma core_events_report (m : machine) (s : settings)
    (duplicate_groups : dict string (list string)) :
  core_events (fst (report m s duplicate_groups)) = [].
Proof.
  unfold report. destruct duplicate_groups as [|g gs]; [reflexivity|].
  pose proof (core_events_save_to_csv (open_w m) (g :: gs) (output_filename s))
    as H.
  destruct (save_to_csv (open_w m) (g :: gs) (output_filename s))
    as [written out].
  exact H.
Qed.

Lemma core_events_announce_mode (s : settings) :
  core_events (announce_mode s) = [].
Proof. unfold announce_mode. now destruct (dry_run s). Qed.

(** The shape of a run: the events of the deletion phase come last, and
    when there are some, the scan returned and deletion was asked for. *)
Lemma run_split (hl : hashlib) (m : machine) (s : settings)
    (answers : list string) :
  exists before deleted,
    fst (run hl m s answers) = before ++ lift Core deleted
    /\ core_events before = []
    /\ (deleted <> [] ->
        delete s = true
        /\ exists path logged groups,
             directory_path s = Some path
             /\ find_duplicates hl (scanned m) path (hash_algo s)
                = (logged, Returned groups)
             /\ deleted
                = fst (delete_duplicates (os_remove m) groups (dry_run s)
                         answers)
             /\ before
                = announce_mode s ++ Say INFO (Starting_scan path)
                    :: lift Scan logged ++ fst (report m s groups)
                    ++ [Say INFO Scan_completed]).
Proof.
  assert (Hnone : forall t,
            core_events t = [] ->
            exists before deleted,
              t = before ++ lift Core deleted
              /\ core_events before = []
              /\ (deleted <> [] ->
                  delete s = true
                  /\ exists path logged groups,
                       directory_path s = Some path
                       /\ find_duplicates hl (scanned m) path (hash_algo s)
                          = (logged, Returned groups)
                       /\ deleted
                          = fst (delete_duplicates (os_remove m) groups
                                   (dry_run s) answers)
                       /\ before
                          = announce_mode s ++ Say INFO (Starting_scan path)
                              :: lift Scan logged ++ fst (report m s groups)
                              ++ [Say INFO Scan_completed])).
  { intros t Ht. exists t, []. split; [now rewrite app_nil_r|].
    split; [exact Ht|]. congruence. }
  unfold run. destruct (directory_path s) as [path|] eqn:Hpath;
    [|apply Hnone, core_events_announce_mode].
  destruct (isdir m path); cbn [negb];
    [|apply Hnone; cbn [fst];
      now rewrite core_events_app, core_events_announce_mode].
  assert (Hscan : forall logged,
            core_events
              ((announce_mode s ++ [Say INFO (Starting_scan path)])
                 ++ lift Scan logged) = []).
  { intros logged.
    now rewrite !core_events_app, core_events_announce_mode,
      core_events_lift_Scan. }
  destruct (find_duplicates hl (scanned m) path (hash_algo s))
    as [logged [groups|code|e|]] eqn:Hfd; cbv zeta;
    try (cbn [fst]; apply Hnone, Hscan).
  pose proof (core_events_report m s groups) as Hrep.
  destruct (report m s groups) as [reported [[]|code|e|]] eqn:Hreport;
    cbn [fst] in Hrep;
    try (cbn [fst]; apply Hnone; now rewrite core_events_app, Hscan, Hrep).
  assert (Htimed : core_events
                     ((announce_mode s ++ [Say INFO (Starting_scan path)])
                        ++ lift Scan logged)
                   ++ core_events (reported ++ [Say INFO Scan_completed])
                   = []).
  { now rewrite Hscan, core_events_app, Hrep. }
  destruct (delete s) eqn:Hdel.
  - destruct (delete_duplicates (os_remove m) groups (dry_run s) answers)
      as [deleted out] eqn:Hdd.
    cbn [fst]. eexists _, deleted. split; [reflexivity|].
    split; [now rewrite core_events_app|].
    intros _. split; [reflexivity|]. exists path, logged, groups.
    split; [reflexivity|]. split; [exact Hfd|].
    split; [now rewrite Hdd|].
    rewrite Hreport. cbn [fst]. rewrite <- !app_assoc. reflexivity.
  - cbn [fst]. apply Hnone. now rewrite core_events_app.
Qed.

Lemma delete_duplicates_dry_logs (os_remove : string -> option exn)
    (duplicate_groups : dict string (list string)) (answers : list string)
    (e : event) :
  In e (fst (delete_duplicates os_remove duplicate_groups true answers)) ->
  exists r, e = Log r.
Proof.
  destruct (delete_loop_dry_run os_remove (values duplicate_groups) answers)
    as [Hlog _].
  unfold delete_duplicates. destruct duplicate_groups as [|g gs].
  - intros [<-|[]]. eauto.
  - destruct (delete_loop os_remove true (values (g :: gs)) answers)
      as [after out].
    cbn [fst] in *. intros [<-|[<-|Hin]]; eauto.
Qed.

(** A run hands a path to [os.remove] only when deletion was asked for and
    the dry run was not. *)
Lemma run_removes_only_on_live_delete (hl : hashlib) (m : machine)
    (s : settings) (answers : list string) (p : string)
    (failure : option exn) :
  In (Core (Remove p failure)) (fst (run hl m s answers)) ->
  delete s = true /\ dry_run s = false.
Proof.
  intros Hin.
  destruct (run_split hl m s answers) as [before [deleted [E [Hb Hd]]]].
  rewrite E in Hin. apply in_app_or in Hin. destruct Hin as [Hin|Hin].
  - apply core_events_In in Hin. rewrite Hb in Hin. destruct Hin.
  - apply core_events_In in Hin. rewrite core_events_lift_Core in Hin.
    destruct Hd as [Hdel [path [logged [groups [_ [_ [Hdeleted _]]]]]]].
    { intros ->. destruct Hin. }
    split; [exact Hdel|].
    destruct (dry_run s); [|reflexivity].
    rewrite Hdeleted in Hin. apply delete_duplicates_dry_logs in Hin.
    destruct Hin as [r Hr]. discriminate.
Qed.

(** X15: in a run the deletion phase comes last: the trace is what the
    scan and the report did, followed by the events of the deletion phase;
    in particular every row of the report is written before any file is
    removed. *)
Theorem deletion_comes_last (hl : hashlib) (m : machine) (s : settings)
    (answers : list string) :
  exists before deleted,
    fst (run hl m s answers) = before ++ map Core deleted
    /\ core_events before = []
    /\ rows_written (fst (run hl m s answers)) = rows_written before
    /\ removed_paths (core_events (fst (run hl m s answers)))
       = removed_paths deleted.
Proof.
  destruct (run_split hl m s answers) as [before [deleted [E [Hb _]]]].
  exists before, deleted. split; [exact E|]. split; [exact Hb|].
  rewrite E, rows_written_app, core_events_app, rows_written_lift_Core,
    core_events_lift_Core, Hb.
  split; [apply app_nil_r|reflexivity].
Qed.






(** ** [main] *)

Lemma ask_directory_asks (isdir : string -> bool) (answers : list string) :
  forallb asks (fst (ask_directory isdir answers)) = true.
Proof.
  induction answers as [|a answers IH]; [reflexivity|]. simpl.
  destruct (isdir a); [reflexivity|].
  destruct (ask_directory isdir answers) as [after r]. exact IH.
Qed.

Lemma interactive_mode_asks (isdir : string -> bool) (answers : list string) :
  forallb asks (fst (interactive_mode isdir answers)) = true.
Proof.
  unfold interactive_mode.
  pose proof (ask_directory_asks isdir answers) as Hasked.
  destruct (ask_directory isdir answers) as [asked [e|[p answers1]]];
    cbn [fst] in *; [now rewrite forallb_app, Hasked|].
  destruct answers1 as [|typed_name [|delete_answer answers3]];
    cbn [fst]; rewrite ?forallb_app, ?Hasked; try reflexivity.
  cbv zeta.
  destruct (lower delete_answer =? "y")%string.
  - destruct answers3 as [|dry_answer [|algo_answer answers5]]; cbn [fst];
      rewrite ?forallb_app, ?Hasked; reflexivity.
  - destruct answers3 as [|algo_answer answers5]; cbn [fst];
      rewrite ?forallb_app, ?Hasked; reflexivity.
Qed.

Lemma interactive_mode_directory (isdir : string -> bool)
    (answers : list string) (asked : list io_event) (s : settings)
    (rest : list string) :
  interactive_mode isdir answers = (asked, Returned (s, rest)) ->
  exists p, directory_path s = Some p /\ isdir p = true.
Proof.
  unfold interactive_mode.
  destruct (ask_directory isdir answers) as [events [e|[p answers1]]] eqn:Hask;
    [discriminate|].
  destruct (ask_directory_first _ _ _ _ _ Hask) as [Hfind _].
  apply find_some in Hfind. destruct Hfind as [_ Hdir].
  destruct answers1 as [|typed_name [|delete_answer answers3]];
    [discriminate|discriminate|].
  cbv zeta. destruct (lower delete_answer =? "y")%string.
  - destruct answers3 as [|dry_answer [|algo_answer answers5]];
      [discriminate|discriminate|].
    intros [= _ <- _]. now exists p.
  - destruct answers3 as [|algo_answer answers5]; [discriminate|].
    intros [= _ <- _]. now exists p.
Qed.

(** X17: [main] hands a path to [os.remove] only in a run whose settings
    ask for deletion and not for a dry run, whether the settings come from
    the command line or from the dialogue; the dialogue itself removes
    nothing. *)
Theorem main_removes_only_when_asked (hl : hashlib) (m : machine)
    (parse_args : list string -> outcome settings) (argv answers : list string)
    (p : string) (failure : option exn) :
  In (Core (Remove p failure)) (fst (main hl m parse_args argv answers)) ->
  exists s left,
    delete s = true /\ dry_run s = false
    /\ In (Core (Remove p failure)) (fst (run hl m s left))
    /\ if wants_interactive argv
       then exists asked,
              interactive_mode (isdir m) answers = (asked, Returned (s, left))
       else parse_args argv = Returned s /\ left = answers.
Proof.
  unfold main. destruct (wants_interactive argv).
  - pose proof (interactive_mode_asks (isdir m) answers) as Hasks.
    destruct (interactive_mode (isdir m) answers)
      as [asked [[s left]|code|e|]] eqn:Hi; cbn [fst] in *.
    + destruct (run hl m s left) as [events out] eqn:Hrun. cbn [fst].
      intros [E|Hin]; [discriminate|].
      apply in_app_or in Hin. destruct Hin as [Hin|Hin].
      * rewrite forallb_forall in Hasks. apply Hasks in Hin. discriminate.
      * assert (Hin' : In (Core (Remove p failure)) (fst (run hl m s left)))
          by now rewrite Hrun.
        destruct (run_removes_only_on_live_delete _ _ _ _ _ _ Hin')
          as [Hd Hdry].
        exists s, left. repeat split; try assumption. now exists asked.
    + intros [E|Hin]; [discriminate|].
      rewrite forallb_forall in Hasks. apply Hasks in Hin. discriminate.
    + intros [E|Hin]; [discriminate|].
      rewrite forallb_forall in Hasks. apply Hasks in Hin. discriminate.
    + intros [E|Hin]; [discriminate|].
      rewrite forallb_forall in Hasks. apply Hasks in Hin. discriminate.
  - destruct (parse_args argv) as [s|code|e|] eqn:Hparse;
      try (intros []).
    intros Hin.
    destruct (run_removes_only_on_live_delete _ _ _ _ _ _ Hin) as [Hd Hdry].
    exists s, answers. repeat split; assumption.
Qed.

Lemma main_removes_only_when_asked_witness :
  exists s left,
    delete s = true /\ dry_run s = false
    /\ In (Core (Remove "/data/b.txt" None))
         (fst (run Example.toy_hashlib Session.machine_ok s left))
    /\ exists asked,
         interactive_mode (isdir Session.machine_ok)
           ["/nope"; "/data"; ""; "Y"; "n"; "MD5"; "y"; "n"]
         = (asked, Returned (s, left)).
Proof.
  apply (main_removes_only_when_asked Example.toy_hashlib Session.machine_ok
           (fun _ => SystemExit 2) ["duplicates.py"]
           ["/nope"; "/data"; ""; "Y"; "n"; "MD5"; "y"; "n"] "/data/b.txt"
           None).
  vm_compute. auto 60.
Defined.

Lemma existsb_lift_Scan (logged : list log_record) :
  existsb is_rejection (lift Scan logged) = false.
Proof. induction logged as [|r logged IH]; [reflexivity|exact IH]. Qed.

Lemma existsb_lift_Core (events : list event) :
  existsb is_rejection (lift Core events) = false.
Proof. induction events as [|e events IH]; [reflexivity|exact IH]. Qed.

Lemma existsb_rows (rows : list (list string)) :
  existsb is_rejection (map WriteRow rows) = false.
Proof. induction rows as [|r rows IH]; [reflexivity|exact IH]. Qed.

Lemma save_to_csv_no_rejection (open_w : string -> exn + option (nat * exn))
    (duplicate_groups : dict string (list string)) (output_path : string) :
  existsb is_rejection (fst (save_to_csv open_w duplicate_groups output_path))
  = false.
Proof.
  unfold save_to_csv. destruct duplicate_groups as [|g gs]; [reflexivity|].
  destruct (open_w output_path) as [e|fault].
  - now destruct (is_OSError e).
  - destruct (report_rows (values (g :: gs))) as [rows stop]. cbv zeta.
    destruct fault as [[k e]|];
      [destruct (k <=? _)%nat; [destruct (is_OSError e)|]|];
      try destruct stop; cbn [fst app]; cbn [existsb is_rejection orb];
      rewrite ?existsb_app, existsb_rows; reflexivity.
Qed.

Lemma run_no_rejection (hl : hashlib) (m : machine) (s : settings)
    (answers : list string) :
  (forall p, directory_path s = Some p -> isdir m p = true) ->
  existsb is_rejection (fst (run hl m s answers)) = false.
Proof.
  intros Hdir.
  assert (Hmode : existsb is_rejection (announce_mode s) = false)
    by (unfold announce_mode; now destruct (dry_run s)).
  unfold run. destruct (directory_path s) as [path|]; [|exact Hmode].
  rewrite (Hdir path eq_refl). cbn [negb].
  assert (Hrep : forall groups,
            existsb is_rejection (fst (report m s groups)) = false).
  { intros groups. unfold report. destruct groups as [|g gs]; [reflexivity|].
    pose proof (save_to_csv_no_rejection (open_w m) (g :: gs)
                  (output_filename s)) as H.
    destruct (save_to_csv (open_w m) (g :: gs) (output_filename s))
      as [written out]. exact H. }
  destruct (find_duplicates hl (scanned m) path (hash_algo s))
    as [logged [groups|code|e|]]; cbv zeta;
    try (cbn [fst]; now rewrite !existsb_app, Hmode, existsb_lift_Scan).
  specialize (Hrep groups).
  destruct (report m s groups) as [reported [[]|code|e|]]; cbn [fst] in Hrep;
    try (cbn [fst]; now rewrite !existsb_app, Hmode, existsb_lift_Scan, Hrep).
  destruct (delete s).
  - destruct (delete_duplicates (os_remove m) groups (dry_run s) answers)
      as [deleted out].
    cbn [fst].
    now rewrite !existsb_app, Hmode, existsb_lift_Scan, Hrep, existsb_lift_Core.
  - cbn [fst]. now rewrite !existsb_app, Hmode, existsb_lift_Scan, Hrep.
Qed.

(** X18: started without arguments, or with a lone request for help,
    [main] never refuses the directory: the dialogue only lets a directory
    through, so the check that follows it cannot fail. *)
Theorem dialogue_directory_is_never_refused (hl : hashlib) (m : machine)
    (parse_args : list string -> outcome settings) (argv answers : list string)
    (p : string) :
  wants_interactive argv = true ->
  ~ In (Say CRITICAL (Directory_not_found p))
      (fst (main hl m parse_args argv answers)).
Proof.
  intros Hmode Hin.
  assert (Hnone : existsb is_rejection (fst (main hl m parse_args argv answers))
                  = false).
  { unfold main. rewrite Hmode.
    assert (Hasked : forall asked,
              forallb asks asked = true ->
              existsb is_rejection asked = false).
    { induction asked as [|e asked IH]; [reflexivity|]. simpl.
      intros H. apply andb_true_iff in H. destruct H as [He H].
      rewrite (IH H). now destruct e as [| |[] []| | | |]. }
    pose proof (interactive_mode_asks (isdir m) answers) as Hasks.
    destruct (interactive_mode (isdir m) answers)
      as [asked [[s left]|code|e|]] eqn:Hi; cbn [fst] in *;
      try (cbn [existsb is_rejection orb]; now apply Hasked).
    destruct (interactive_mode_directory _ _ _ _ _ Hi) as [q [Hq Hdir]].
    pose proof (run_no_rejection hl m s left) as Hrun.
    destruct (run hl m s left) as [events out]. cbn [fst] in *.
    cbn [existsb is_rejection orb]. rewrite existsb_app, (Hasked _ Hasks).
    apply Hrun. intros q' Hq'. rewrite Hq in Hq'. now injection Hq' as <-. }
  assert (Hsome : existsb is_rejection (fst (main hl m parse_args argv answers))
                  = true).
  { apply existsb_exists. now exists (Say CRITICAL (Directory_not_found p)). }
  congruence.
Qed.

Lemma dialogue_directory_is_never_refused_witness :
  ~ In (Say CRITICAL (Directory_not_found "/nope"))
      (fst (main Example.toy_hashlib Session.machine_ok (fun _ => SystemExit 2)
              ["duplicates.py"; "--help"] ["/nope"; "/data"; ""; "n"; "x"])).
Proof.
  apply dialogue_directory_is_never_refused. reflexivity.
Defined.

(** X19: a report that cannot be opened does not hold the deletion back:
    when the scan found groups, the report fails to open with an [OSError],
    and deletion is set without dry run, no row is written and the deletion
    phase runs all the same, on the groups of the scan. *)
Theorem failed_report_does_not_stop_deletion (hl : hashlib) (m : machine)
    (s : settings) (answers : list string) (path : string)
    (logged : list log_record) (groups : dict string (list string))
    (e : exn) :
  directory_path s = Some path ->
  isdir m path = true ->
  find_duplicates hl (scanned m) path (hash_algo s)
  = (logged, Returned groups) ->
  groups <> [] ->
  open_w m (output_filename s) = inl e -> is_OSError e = true ->
  delete s = true -> dry_run s = false ->
  rows_written (fst (run hl m s answers)) = []
  /\ core_events (fst (run hl m s answers))
     = fst (delete_duplicates (os_remove m) groups false answers)
  /\ snd (run hl m s answers)
     = snd (delete_duplicates (os_remove m) groups false answers).
Proof.
  intros Hpath Hdir Hfd Hgroups Hopen He Hdel Hdry.
  unfold run. rewrite Hpath, Hdir, Hfd, Hdel, Hdry. cbn [negb].
  unfold report, save_to_csv, announce_mode. rewrite Hdry, Hopen, He.
  destruct groups as [|g gs]; [congruence|]. cbv zeta.
  destruct (delete_duplicates (os_remove m) (g :: gs) false answers)
    as [deleted out].
  assert (Hscan : rows_written (lift Scan logged) = [])
    by (clear; induction logged as [|r l IH]; [reflexivity|exact IH]).
  cbn [fst snd].
  rewrite !rows_written_app, !core_events_app, rows_written_lift_Core,
    core_events_lift_Core, core_events_lift_Scan, Hscan.
  repeat split.
Qed.

Lemma failed_report_does_not_stop_deletion_witness :
  core_events
    (fst (run Example.toy_hashlib
            (mkMachine (isdir Session.machine_ok) Example.sys_a
               (fun _ => inl PermissionError) (fun _ => None))
            Session.live ["y"; "y"]))
  = fst (delete_duplicates (fun _ => None) Example.groups false ["y"; "y"]).
Proof.
  apply (failed_report_does_not_stop_deletion Example.toy_hashlib
           (mkMachine (isdir Session.machine_ok) Example.sys_a
              (fun _ => inl PermissionError) (fun _ => None))
           Session.live ["y"; "y"] "/data"
           [(INFO, Pass1_grouping); (INFO, Pass2_hashing)] Example.groups
           PermissionError);
    try reflexivity.
  discriminate.
Defined.
